(** * Title pipeline of the scraping proxy (app.py): a shallow embedding

    Python values are embedded as follows.
    - A [str] is the list of its code points.  Code points are taken in the
      8-bit range (Rocq's [ascii]); on that range the character classes below
      are the ones of CPython's Unicode database ([str.isspace],
      [str.isdigit], [str.isalpha], [str.lower], and the [\s], [\d] classes
      of [re] on [str] patterns).
    - [None] is [None] of an [option]; "falsy" ([not x]) is written out.
    - Regular expressions are values of an abstract syntax, run by a
      backtracking matcher with the priorities of [re] (leftmost start,
      first alternative first, greedy repetition). *)

From Stdlib Require Import Ascii String List Bool Arith NArith ZArith QArith Lia.
Import ListNotations.
Close Scope Q_scope.
Open Scope nat_scope.

Set Warnings "-register-all".


(** ** Python strings *)

Module PyStr.

Definition str := list ascii.

Definition py (s : string) : str := list_ascii_of_string s.

Definition code (c : ascii) : N := N_of_ascii c.

Definition in_range (lo hi : N) (c : ascii) : bool :=
  (lo <=? code c)%N && (code c <=? hi)%N.

Definition is_code (n : N) (c : ascii) : bool := (code c =? n)%N.

(** [str.isspace] on one character; also the class [\s]. *)
Definition isspace (c : ascii) : bool :=
  in_range 9 13 c || in_range 28 32 c || is_code 133 c || is_code 160 c.

(** The class [\d] (decimal digits). *)
Definition isdecimal (c : ascii) : bool := in_range 48 57 c.

(** [str.isdigit] on one character: the decimal digits and the superscript
    digits U+00B2, U+00B3, U+00B9. *)
Definition isdigit (c : ascii) : bool :=
  isdecimal c || is_code 178 c || is_code 179 c || is_code 185 c.

Definition is_ascii_upper (c : ascii) : bool := in_range 65 90 c.
Definition is_ascii_lower (c : ascii) : bool := in_range 97 122 c.

(** [str.isalpha] on one character. *)
Definition isalpha (c : ascii) : bool :=
  is_ascii_upper c || is_ascii_lower c
  || is_code 170 c || is_code 181 c || is_code 186 c
  || in_range 192 214 c || in_range 216 246 c || in_range 248 255 c.

(** [str.lower] on one character. *)
Definition lower (c : ascii) : ascii :=
  if is_ascii_upper c || in_range 192 214 c || in_range 216 222 c
  then ascii_of_N (code c + 32)
  else c.

Definition str_lower (s : str) : str := map lower s.

(** [not s] for a string. *)
Definition is_empty (s : str) : bool :=
  match s with [] => true | _ :: _ => false end.

(** [s.isdigit()]: every character is a digit and there is at least one. *)
Definition str_isdigit (s : str) : bool :=
  negb (is_empty s) && forallb isdigit s.

Fixpoint lstrip (s : str) : str :=
  match s with
  | [] => []
  | c :: t => if isspace c then lstrip t else s
  end.

Definition rstrip (s : str) : str := rev (lstrip (rev s)).

(** [s.strip()] *)
Definition strip (s : str) : str := rstrip (lstrip s).

(** [s.split()]: the maximal runs of non-whitespace characters.  [cur] holds
    the current run, reversed. *)
Fixpoint split_ws (cur : str) (s : str) : list str :=
  match s with
  | [] => if is_empty cur then [] else [rev cur]
  | c :: t =>
      if isspace c
      then (if is_empty cur then split_ws [] t else rev cur :: split_ws [] t)
      else split_ws (c :: cur) t
  end.

Definition split (s : str) : list str := split_ws [] s.

Definition ascii_eqb (a b : ascii) : bool := Ascii.eqb a b.

Fixpoint str_eqb (a b : str) : bool :=
  match a, b with
  | [], [] => true
  | x :: a', y :: b' => ascii_eqb x y && str_eqb a' b'
  | _, _ => false
  end.

(** [s.startswith(p)], returning what follows the prefix. *)
Fixpoint strip_prefix (p s : str) : option str :=
  match p, s with
  | [], _ => Some s
  | x :: p', y :: s' => if ascii_eqb x y then strip_prefix p' s' else None
  | _ :: _, [] => None
  end.

Definition startswith (s p : str) : bool :=
  match strip_prefix p s with Some _ => true | None => false end.

(** [s.partition(sep)] at the first occurrence of [sep]: the text before it
    and the text after it, or [None] when [sep] does not occur. *)
Fixpoint split_first (sep s : str) : option (str * str) :=
  match strip_prefix sep s with
  | Some rest => Some ([], rest)
  | None =>
      match s with
      | [] => None
      | c :: t =>
          match split_first sep t with
          | Some (pre, post) => Some (c :: pre, post)
          | None => None
          end
      end
  end.

(** [sep in s] *)
Definition contains (sep s : str) : bool :=
  match split_first sep s with Some _ => true | None => false end.

(** Lexicographic order on code points: [a < b] on strings. *)
Fixpoint str_ltb (a b : str) : bool :=
  match a, b with
  | [], [] => false
  | [], _ :: _ => true
  | _ :: _, [] => false
  | x :: a', y :: b' =>
      if (code x <? code y)%N then true
      else if (code y <? code x)%N then false
      else str_ltb a' b'
  end.

End PyStr.

Import PyStr.

(** ** The [re] engine *)

Module Re.

(** A position in the subject: the number of characters before it and the
    characters after it. *)
Record cursor := Cursor { pos : nat; rest : str }.

Inductive regex :=
| Eps                          (* the empty pattern *)
| CharIn (p : ascii -> bool)   (* one character of a class *)
| Cat (r1 r2 : regex)
| Alt (r1 r2 : regex)          (* r1|r2, r1 tried first *)
| Star (r : regex)             (* r*, greedy *)
| Bol                          (* ^ *)
| Eol.                         (* $ *)

Definition advance (c : cursor) (t : str) : cursor :=
  Cursor (S (pos c)) t.

Definition newline : ascii := ascii_of_N 10.

(** The loop of a greedy repetition, over the matcher [m] of its body: one
    more iteration is tried before what follows ([k]); an iteration that
    consumed nothing ends the loop.  [n] bounds the number of iterations by
    the number of characters left. *)
Fixpoint star_loop (m : cursor -> (cursor -> option cursor) -> option cursor)
  (k : cursor -> option cursor) (n : nat) (c0 : cursor) {struct n}
  : option cursor :=
  match n with
  | O => k c0
  | S n' =>
      match m c0 (fun c1 =>
                    if length (rest c1) <? length (rest c0)
                    then star_loop m k n' c1
                    else k c1) with
      | Some e => Some e
      | None => k c0
      end
  end.

(** [rmatch r c k]: match [r] at [c], then run the continuation [k] on the
    cursor reached; [None] makes the matcher backtrack. *)
Fixpoint rmatch (r : regex) (c : cursor) (k : cursor -> option cursor)
  {struct r} : option cursor :=
  match r with
  | Eps => k c
  | CharIn p =>
      match rest c with
      | x :: t => if p x then k (advance c t) else None
      | [] => None
      end
  | Cat r1 r2 => rmatch r1 c (fun c1 => rmatch r2 c1 k)
  | Alt r1 r2 =>
      match rmatch r1 c k with
      | Some e => Some e
      | None => rmatch r2 c k
      end
  | Star r1 => star_loop (rmatch r1) k (S (length (rest c))) c
  | Bol => if pos c =? 0 then k c else None
  | Eol =>
      match rest c with
      | [] => k c
      | [x] => if ascii_eqb x newline then k c else None
      | _ => None
      end
  end.

(** [pattern.match] at a cursor: the end of the match. *)
Definition match_at (r : regex) (c : cursor) : option cursor :=
  rmatch r c (fun e => Some e).

(** [re.fullmatch]: the match has to reach the end of the subject. *)
Definition fullmatch (r : regex) (s : str) : bool :=
  match rmatch r (Cursor 0 s)
          (fun e => if is_empty (rest e) then Some e else None) with
  | Some _ => true
  | None => false
  end.

(** [re.search]: the leftmost position at which the pattern matches. *)
Fixpoint search_from (r : regex) (p : nat) (s : str) : option (cursor * cursor) :=
  match match_at r (Cursor p s) with
  | Some e => Some (Cursor p s, e)
  | None =>
      match s with
      | [] => None
      | _ :: t => search_from r (S p) t
      end
  end.

Definition search (r : regex) (s : str) : bool :=
  match search_from r 0 s with Some _ => true | None => false end.

(** [pattern.sub('', s)]: scan left to right; a match is dropped and the scan
    resumes where it ended; where nothing matches one character is copied.
    (A match of length zero removes nothing and the scan moves on: none of
    the patterns below can match the empty string.) *)
Fixpoint sub_loop (fuel : nat) (r : regex) (c : cursor) : str :=
  match fuel with
  | O => rest c
  | S f =>
      match match_at r c with
      | Some e =>
          if length (rest e) <? length (rest c)
          then sub_loop f r e
          else match rest c with
               | [] => []
               | x :: t => x :: sub_loop f r (advance c t)
               end
      | None =>
          match rest c with
          | [] => []
          | x :: t => x :: sub_loop f r (advance c t)
          end
      end
  end.

Definition sub (r : regex) (s : str) : str :=
  sub_loop (S (length s)) r (Cursor 0 s).

(** *** Pattern syntax *)

Definition chr (a : ascii) : regex := CharIn (ascii_eqb a).

(** A literal under [re.IGNORECASE]. *)
Definition chr_i (a : ascii) : regex :=
  CharIn (fun x => ascii_eqb (lower x) (lower a)).

Fixpoint cat_all (rs : list regex) : regex :=
  match rs with
  | [] => Eps
  | [r] => r
  | r :: rs' => Cat r (cat_all rs')
  end.

Fixpoint alt_all (rs : list regex) : regex :=
  match rs with
  | [] => Eps
  | [r] => r
  | r :: rs' => Alt r (alt_all rs')
  end.

Definition lit (s : string) : regex := cat_all (map chr (py s)).
Definition lit_i (s : string) : regex := cat_all (map chr_i (py s)).

Definition ws : regex := CharIn isspace.                 (* \s *)
Definition digit : regex := CharIn isdecimal.            (* \d *)
Definition dot : regex := CharIn (fun x => negb (ascii_eqb x newline)).  (* . *)
Definition plus (r : regex) : regex := Cat r (Star r).   (* r+ *)
Definition opt (r : regex) : regex := Alt r Eps.         (* r? *)
Definition ws_star : regex := Star ws.                   (* \s* *)
Definition digit4 : regex := cat_all [digit; digit; digit; digit].

End Re.

Import Re.

(** ** CONFIG *)

Definition LANGUAGE_NAMES : list string :=
  ["tamil"; "hindi"; "telugu"; "malayalam"; "kannada"; "bengali"; "marathi";
   "punjabi"]%string.

(** The keys of [LANGUAGE_CODES], in insertion order. *)
Definition LANGUAGE_CODES_keys : list str := map py LANGUAGE_NAMES.

(** [LANGUAGE_CODES.get]: every key maps to itself. *)
Definition LANGUAGE_CODES_get (k : str) : option str :=
  if existsb (str_eqb k) LANGUAGE_CODES_keys then Some k else None.

(** [(?:Tamil|Hindi|Telugu|Malayalam|Kannada|Bengali|Marathi|Punjabi)] under
    IGNORECASE. *)
Definition languages : regex :=
  alt_all (map lit_i
    ["Tamil"; "Hindi"; "Telugu"; "Malayalam"; "Kannada"; "Bengali"; "Marathi";
     "Punjabi"]%string).

(** [(?:HD|SD)] *)
Definition quality : regex := Alt (lit_i "HD") (lit_i "SD").

(** [\s*in\s*(?:HD|SD)\s*-\s*Einthusan.*$], the tail shared by the first
    three rules. *)
Definition in_quality_brand : regex :=
  cat_all [ws_star; lit_i "in"; ws_star; quality; ws_star; lit_i "-"; ws_star;
           lit_i "Einthusan"; Star dot; Eol].

(** [\s*\(\d{4}\)] *)
Definition year_parens : regex :=
  cat_all [ws_star; lit_i "("; digit4; lit_i ")"].

Definition pattern_year_lang_brand : regex :=
  cat_all [year_parens; ws_star; languages; in_quality_brand].

Definition pattern_year_langs_brand : regex :=
  cat_all [year_parens; ws_star;
           plus (cat_all [languages; ws_star; opt (lit_i ","); ws_star]);
           in_quality_brand].

Definition pattern_lang_brand : regex :=
  cat_all [ws_star; languages; in_quality_brand].

(** [^Einthusan\s*[-–—]\s*]: of the three dashes of the class only the
    hyphen is an 8-bit code point. *)
Definition pattern_brand_prefix : regex :=
  cat_all [Bol; lit_i "Einthusan"; ws_star; lit_i "-"; ws_star].

(** [\s*\(\d{4}\)\s*$], the one rule compiled without IGNORECASE. *)
Definition pattern_year : regex :=
  cat_all [ws_star; lit "("; digit4; lit ")"; ws_star; Eol].

Definition pattern_bracket_lang : regex :=
  cat_all [ws_star; lit_i "["; languages; lit_i "]"].

Definition pattern_pipe_brand : regex :=
  cat_all [lit_i "|"; ws_star; lit_i "Einthusan"; Star dot; Eol].

Definition pattern_watch_full : regex :=
  Cat (lit_i "Watch Full Movie Online Free") Eol.

Definition pattern_online_watch : regex :=
  cat_all [lit_i "Online Watch Free "; quality; Eol].

Definition pattern_free_movies : regex :=
  Cat (lit_i "Free Movies Online") Eol.

(** The replacement of every rule is the empty string. *)
Definition TITLE_PATTERNS : list regex :=
  [pattern_year_lang_brand; pattern_year_langs_brand; pattern_lang_brand;
   pattern_brand_prefix; pattern_year; pattern_bracket_lang;
   pattern_pipe_brand; pattern_watch_full; pattern_online_watch;
   pattern_free_movies].

(** ** HELPERS *)

Definition apply_patterns (ps : list regex) (title : str) : str :=
  fold_left (fun t p => sub p t) ps title.

Definition clean_title (title : option str) : option str :=
  match title with
  | None => None
  | Some t =>
      if is_empty t then None
      else Some (strip (apply_patterns TITLE_PATTERNS (strip t)))
  end.

(** [[A-Za-z0-9]] *)
Definition is_ascii_alnum (c : ascii) : bool :=
  is_ascii_upper c || is_ascii_lower c || isdecimal c.

(** [[AEIOUaeiou]] *)
Definition is_vowel (c : ascii) : bool :=
  existsb (ascii_eqb c) (py "AEIOUaeiou").

Definition looks_like_code (s : option str) : bool :=
  match s with
  | None => false
  | Some s =>
      if is_empty s then false
      else
        let s2 := strip s in
        if is_empty s2 then false
        else if str_isdigit s2 then false
        else
          let one_token := length (split s2) =? 1 in
          let simple := fullmatch (plus (CharIn is_ascii_alnum)) s2 in
          let shortish := (2 <=? length s2) && (length s2 <=? 8) in
          let has_digit := existsb isdigit s2 in
          let alpha := filter isalpha s2 in
          let no_vowel :=
            if is_empty alpha then false
            else negb (search (CharIn is_vowel) alpha) in
          one_token && simple && shortish && (has_digit || no_vowel)
  end.

(** ** [difflib]: [SequenceMatcher] and [get_close_matches]

    A [SequenceMatcher] is made with [isjunk=None] and [autojunk=True];
    [a] is the candidate ([set_seq1]) and [b] the word ([set_seq2]).
    Ratios are the floats [2.0 * matches / length]; they are embedded as the
    exact rationals.  Rounding to a double is monotone and the quotients
    compared here have denominators bounded by the lengths of the strings,
    so a comparison of two such doubles, or of one with the double [0.7],
    has the outcome of the comparison of the rationals. *)

Module Difflib.

(** The ascending indices [j0 + j] at which [x] occurs in [b]. *)
Fixpoint indices_from (x : ascii) (b : str) (j0 : nat) : list nat :=
  match b with
  | [] => []
  | y :: t =>
      if ascii_eqb x y then j0 :: indices_from x t (S j0)
      else indices_from x t (S j0)
  end.

(** [bpopular]: with [autojunk] and [len(b) >= 200], the elements with more
    than [len(b) // 100 + 1] occurrences. *)
Definition popular (b : str) (x : ascii) : bool :=
  (200 <=? length b)
  && (length b / 100 + 1 <? length (indices_from x b 0)).

(** [b2j.get(x, [])] after [__chain_b]. *)
Definition b2j (b : str) (x : ascii) : list nat :=
  if popular b x then [] else indices_from x b 0.

(** [bjunk] is empty: there is no [isjunk] function. *)
Definition isbjunk (x : ascii) : bool := false.

(** [j2len.get(j, 0)] on a dict given as an association list. *)
Fixpoint j2len_get (d : list (nat * nat)) (j : nat) : nat :=
  match d with
  | [] => 0
  | (j', k) :: t => if j' =? j then k else j2len_get t j
  end.

Definition triple := (nat * nat * nat)%type.

Section Matcher.

Variables a b : str.

(** [a[i]] and [b[j]]; every index used below is within the sequence. *)
Definition a_at (i : nat) : ascii := nth i a zero.
Definition b_at (j : nat) : ascii := nth j b zero.

(** The inner loop of [find_longest_match] over [b2j.get(a[i])]. *)
Fixpoint scan_row (j2len : list (nat * nat)) (blo bhi i : nat)
  (js : list nat) (newj2len : list (nat * nat)) (best : triple)
  : list (nat * nat) * triple :=
  match js with
  | [] => (newj2len, best)
  | j :: js' =>
      if j <? blo then scan_row j2len blo bhi i js' newj2len best
      else if bhi <=? j then (newj2len, best)
      else
        let k := (match j with
                  | O => 0
                  | S j1 => j2len_get j2len j1
                  end) + 1 in
        let '(_, _, bestsize) := best in
        scan_row j2len blo bhi i js' ((j, k) :: newj2len)
          (if bestsize <? k then (i + 1 - k, j + 1 - k, k) else best)
  end.

(** The outer loop, over [range(alo, ahi)] given as a list. *)
Fixpoint scan_rows (blo bhi : nat) (rows : list nat)
  (j2len : list (nat * nat)) (best : triple) : triple :=
  match rows with
  | [] => best
  | i :: rows' =>
      let '(newj2len, best') :=
        scan_row j2len blo bhi i (b2j b (a_at i)) [] best in
      scan_rows blo bhi rows' newj2len best'
  end.

(** [while besti > alo and bestj > blo and isbjunk(b[bestj-1]) == junk and
    a[besti-1] == b[bestj-1]]: recursion on [besti]. *)
Fixpoint extend_left (junk : bool) (alo blo : nat) (besti bestj bestsize : nat)
  {struct besti} : triple :=
  match besti with
  | O => (besti, bestj, bestsize)
  | S i1 =>
      if (alo <? besti) && (blo <? bestj)
         && Bool.eqb (isbjunk (b_at (bestj - 1))) junk
         && ascii_eqb (a_at i1) (b_at (bestj - 1))
      then extend_left junk alo blo i1 (bestj - 1) (bestsize + 1)
      else (besti, bestj, bestsize)
  end.

(** [while besti+bestsize < ahi and bestj+bestsize < bhi and ...]: [n] is
    the distance from [besti+bestsize] to [ahi]. *)
Fixpoint extend_right (junk : bool) (bhi : nat) (n : nat)
  (besti bestj bestsize : nat) {struct n} : triple :=
  match n with
  | O => (besti, bestj, bestsize)
  | S n' =>
      if (bestj + bestsize <? bhi)
         && Bool.eqb (isbjunk (b_at (bestj + bestsize))) junk
         && ascii_eqb (a_at (besti + bestsize)) (b_at (bestj + bestsize))
      then extend_right junk bhi n' besti bestj (bestsize + 1)
      else (besti, bestj, bestsize)
  end.

Definition extend (junk : bool) (alo ahi blo bhi : nat) (m : triple) : triple :=
  let '(i1, j1, k1) := m in
  let '(i2, j2, k2) := extend_left junk alo blo i1 j1 k1 in
  extend_right junk bhi (ahi - (i2 + k2)) i2 j2 k2.

Definition find_longest_match (alo ahi blo bhi : nat) : triple :=
  let m0 := scan_rows blo bhi (seq alo (ahi - alo)) [] (alo, blo, 0) in
  extend true alo ahi blo bhi (extend false alo ahi blo bhi m0).

Definition range4 := (nat * nat * nat * nat)%type.

(** The work-list loop of [get_matching_blocks]; the head of [queue] is the
    entry appended last.  The blocks are returned before they are sorted and
    adjacent ones merged, which leaves the sum of their sizes unchanged. *)
Fixpoint blocks_loop (fuel : nat) (queue : list range4) (acc : list triple)
  : list triple :=
  match fuel with
  | O => acc
  | S f =>
      match queue with
      | [] => acc
      | (alo, ahi, blo, bhi) :: q =>
          let '(i, j, k) := find_longest_match alo ahi blo bhi in
          if k =? 0 then blocks_loop f q acc
          else
            let q1 := if (alo <? i) && (blo <? j)
                      then (alo, i, blo, j) :: q else q in
            let q2 := if (i + k <? ahi) && (j + k <? bhi)
                      then (i + k, ahi, j + k, bhi) :: q1 else q1 in
            blocks_loop f q2 ((i, j, k) :: acc)
      end
  end.

Definition get_matching_blocks : list triple :=
  blocks_loop (2 * length a + 2) [(0, length a, 0, length b)] [].

Definition _calculate_ratio (matches len : nat) : Q :=
  if len =? 0 then 1%Q
  else Qmake (2 * Z.of_nat matches) (Pos.of_nat len).

Definition ratio : Q :=
  let matches := fold_right (fun t s => snd t + s) 0 get_matching_blocks in
  _calculate_ratio matches (length a + length b).

(** [avail.get(elt)], [avail] an association list. *)
Fixpoint avail_get (avail : list (ascii * Z)) (elt : ascii) : option Z :=
  match avail with
  | [] => None
  | (e, n) :: t => if ascii_eqb e elt then Some n else avail_get t elt
  end.

Definition fullbcount (elt : ascii) : Z :=
  Z.of_nat (length (indices_from elt b 0)).

Fixpoint quick_loop (s : str) (avail : list (ascii * Z)) (matches : nat) : nat :=
  match s with
  | [] => matches
  | elt :: t =>
      let numb := match avail_get avail elt with
                  | Some n => n
                  | None => fullbcount elt
                  end in
      quick_loop t ((elt, (numb - 1)%Z) :: avail)
        (if (0 <? numb)%Z then matches + 1 else matches)
  end.

Definition quick_ratio : Q :=
  _calculate_ratio (quick_loop a [] 0) (length a + length b).

Definition real_quick_ratio : Q :=
  _calculate_ratio (Nat.min (length a) (length b)) (length a + length b).

End Matcher.

(** [(s1, x1) > (s2, x2)] on (score, string) tuples. *)
Definition scored_gtb (p1 p2 : Q * str) : bool :=
  if Qeq_bool (fst p1) (fst p2) then str_ltb (snd p2) (snd p1)
  else negb (Qle_bool (fst p1) (fst p2)).

(** [max(iterable)]: the first of the greatest items. *)
Fixpoint max_from (cur : Q * str) (l : list (Q * str)) : Q * str :=
  match l with
  | [] => cur
  | x :: t => max_from (if scored_gtb x cur then x else cur) t
  end.

(** [heapq.nlargest(1, result)] *)
Definition nlargest1 (result : list (Q * str)) : list (Q * str) :=
  match result with
  | [] => []
  | x :: t => [max_from x t]
  end.

Definition clears (cutoff : Q) (word x : str) : bool :=
  Qle_bool cutoff (real_quick_ratio x word)
  && Qle_bool cutoff (quick_ratio x word)
  && Qle_bool cutoff (ratio x word).

(** [get_close_matches(word, possibilities, n=1, cutoff)] *)
Definition get_close_matches1 (word : str) (possibilities : list str)
  (cutoff : Q) : list str :=
  let result :=
    flat_map (fun x => if clears cutoff word x then [(ratio x word, x)] else [])
      possibilities in
  map snd (nlargest1 result).

End Difflib.

Definition cutoff : Q := Qmake 7 10.

(** The function under [@cached]: the value computed on a cache miss. *)
Definition correct_spelling_body (user_input : option str) : option str :=
  let word := str_lower (match user_input with Some s => s | None => [] end) in
  match Difflib.get_close_matches1 word LANGUAGE_CODES_keys cutoff with
  | m :: _ => Some m
  | [] => None
  end.

(** ** Pages, exceptions and the caches *)

Definition bytes := list Byte.byte.

(** The exception classes told apart by the [except] clauses:
    [ConnectionError], [Timeout], [HTTPError] and the other subclasses of
    [requests.RequestException], and the other subclasses of [Exception]. *)
Inductive exn :=
| ConnectionError
| Timeout
| HTTPError
| OtherRequestException
| OtherException.

Definition is_RequestException (e : exn) : bool :=
  match e with
  | OtherException => false
  | _ => true
  end.

(** [except Exception] *)
Definition is_Exception (e : exn) : bool := true.

Inductive outcome (A : Type) :=
| Ret (a : A)
| Raise (e : exn).

Arguments Ret {A} a.
Arguments Raise {A} e.

(** [try: body  except <class>: handler] *)
Definition try_except {A : Type} (body : outcome A) (caught : exn -> bool)
  (handler : exn -> outcome A) : outcome A :=
  match body with
  | Ret a => Ret a
  | Raise e => if caught e then handler e else Raise e
  end.

Record response := Response { status_code : Z; content : bytes }.

(** [Response.raise_for_status]: [HTTPError] for the client and server error
    statuses. *)
Definition raise_for_status (resp : response) : outcome unit :=
  if ((400 <=? status_code resp) && (status_code resp <? 600))%Z
  then Raise HTTPError
  else Ret tt.

(** An HTML tree as BeautifulSoup exposes it: strings and tags with their
    attribute dict (as an association list) and children. *)
Inductive node :=
| Text (s : str)
| Tag (name : str) (attrs : list (str * str)) (children : list node).

Record movie := Movie { title : str; img_url : str; page_url : str }.

(** What the cache shared by [fetch_page] and [fetch_movies_by_url] holds:
    [None], the bytes of a page, or a list of records. *)
Inductive value :=
| VNone
| VBytes (b : bytes)
| VMovies (l : list movie).

(** [not v] *)
Definition falsy (v : value) : bool :=
  match v with
  | VNone => true
  | VBytes [] => true
  | VBytes (_ :: _) => false
  | VMovies [] => true
  | VMovies (_ :: _) => false
  end.

(** The collaborators of the module: the HTTP session, the HTML parser and
    the [TTLCache] objects with their item access ([cache[k]], which may
    reorder or expire entries, and [cache[k] = v]). *)
Record World := {
  SESSION_get : str -> outcome response;
  BeautifulSoup : value -> outcome node;
  fetch_page_cache : Type;
  cache_getitem :
    fetch_page_cache -> str -> option value * fetch_page_cache;
  cache_setitem : fetch_page_cache -> str -> value -> fetch_page_cache;
  spell_cache : Type;
  spell_getitem : spell_cache -> option str -> option (option str) * spell_cache;
  spell_setitem : spell_cache -> option str -> option str -> spell_cache
}.

(** ** The DOM queries *)

Module Dom.

(** [tag.descendants], in document order. *)
Fixpoint descendants (n : node) : list node :=
  match n with
  | Text _ => []
  | Tag _ _ cs =>
      (fix over (l : list node) : list node :=
         match l with
         | [] => []
         | c :: l' => c :: descendants c ++ over l'
         end) cs
  end.

(** [tag.text] *)
Fixpoint text (n : node) : str :=
  match n with
  | Text s => s
  | Tag _ _ cs =>
      (fix over (l : list node) : str :=
         match l with
         | [] => []
         | c :: l' => text c ++ over l'
         end) cs
  end.

Fixpoint assoc (k : str) (d : list (str * str)) : option str :=
  match d with
  | [] => None
  | (k', v) :: t => if str_eqb k' k then Some v else assoc k t
  end.

(** [tag.get(key)] *)
Definition get (n : node) (key : string) : option str :=
  match n with
  | Text _ => None
  | Tag _ attrs _ => assoc (py key) attrs
  end.

(** [x or y] and truthiness for an optional string. *)
Definition truthy (o : option str) : bool :=
  match o with
  | Some (_ :: _) => true
  | _ => false
  end.

Definition or_else (x y : option str) : option str :=
  if truthy x then x else y.

Definition has_name (name : string) (n : node) : bool :=
  match n with
  | Text _ => false
  | Tag nm _ _ => str_eqb nm (py name)
  end.

(** [attr=value] as a search filter. *)
Definition has_attr (key value : string) (n : node) : bool :=
  match get n key with
  | Some v => str_eqb v (py value)
  | None => false
  end.

(** [class_=value]: one of the whitespace-separated classes is [value]. *)
Definition has_class (value : string) (n : node) : bool :=
  match get n "class" with
  | Some v => existsb (fun c => str_eqb c (py value)) (split v)
  | None => false
  end.

(** [tag.find_all(...)] and [tag.find(...)] for a filter [f]. *)
Definition find_all (f : node -> bool) (n : node) : list node :=
  filter f (descendants n).

Definition find (f : node -> bool) (n : node) : option node :=
  match find_all f n with
  | [] => None
  | x :: _ => Some x
  end.

End Dom.

(** ** The fetching and scraping functions *)

Section Scraper.

Variable w : World.

(** Computations over the shared page cache that may raise. *)
Definition M (A : Type) : Type := fetch_page_cache w -> outcome A * fetch_page_cache w.

Definition ret {A : Type} (a : A) : M A := fun st => (Ret a, st).

Definition bind {A B : Type} (m : M A) (f : A -> M B) : M B :=
  fun st =>
    match m st with
    | (Ret a, st') => f a st'
    | (Raise e, st') => (Raise e, st')
    end.

Definition lift {A : Type} (o : outcome A) : M A := fun st => (o, st).

Notation "x <- m ;; f" := (bind m (fun x => f))
  (at level 61, m at next level, right associativity).

(** [cachetools.cached(cache)(func)] called with key [k]: a hit returns the
    stored value; otherwise [func] runs and its value is stored. *)
Definition cached (k : str) (func : M value) : M value :=
  fun st =>
    match cache_getitem w st k with
    | (Some v, st1) => (Ret v, st1)
    | (None, st1) =>
        match func st1 with
        | (Ret v, st2) => (Ret v, cache_setitem w st2 k v)
        | (Raise e, st2) => (Raise e, st2)
        end
    end.

(** The body of [fetch_page]. *)
Definition fetch_page_body (url : str) : outcome value :=
  try_except
    (match SESSION_get w url with
     | Raise e => Raise e
     | Ret resp =>
         match raise_for_status resp with
         | Raise e => Raise e
         | Ret _ => Ret (VBytes (content resp))
         end
     end)
    is_RequestException
    (fun _ => Ret VNone).

Definition fetch_page (url : str) : M value :=
  cached url (lift (fetch_page_body url)).

(** One source of [try_extract_title_from_dom]: the raw text, when it is
    present and not empty, cleaned; accepted when the result is truthy. *)
Definition cleaned_if_any (raw : option str) : option str :=
  if Dom.truthy raw
  then (let cleaned := clean_title raw in
        if Dom.truthy cleaned then cleaned else None)
  else None.

Definition try_extract_title_from_dom (soup : node) : option str :=
  let meta :=
    Dom.find (fun n => Dom.has_name "meta" n && Dom.has_attr "property" "og:title" n)
      soup in
  match cleaned_if_any
          (match meta with Some m => Dom.get m "content" | None => None end) with
  | Some cleaned => Some cleaned
  | None =>
      match cleaned_if_any
              (option_map Dom.text (Dom.find (Dom.has_name "title") soup)) with
      | Some cleaned => Some cleaned
      | None =>
          cleaned_if_any
            (option_map Dom.text (Dom.find (Dom.has_name "h1") soup))
      end
  end.

Definition get_title_from_movie_page (page_url : str) : M (option str) :=
  content <- fetch_page page_url ;;
  if falsy content then ret None
  else
    soup <- lift (BeautifulSoup w content) ;;
    ret (try_extract_title_from_dom soup).

(** The candidate titles of a block, in priority order. *)
Definition candidates (title_div : option node) (img : node) : list str :=
  (match title_div with
   | Some d => if is_empty (Dom.text d) then [] else [strip (Dom.text d)]
   | None => []
   end)
  ++ (if Dom.truthy (Dom.get img "alt")
      then match Dom.get img "alt" with Some v => [strip v] | None => [] end
      else [])
  ++ (if Dom.truthy (Dom.get img "title")
      then match Dom.get img "title" with Some v => [strip v] | None => [] end
      else []).

(** The [for c in candidates] loop: the first cleaned candidate that is not
    empty, longer than 2 and not numeric. *)
Fixpoint first_title (cs : list str) : option str :=
  match cs with
  | [] => None
  | c :: cs' =>
      match clean_title (Some c) with
      | Some cleaned =>
          if negb (is_empty cleaned) && (2 <? length cleaned)
             && negb (str_isdigit cleaned)
          then Some cleaned
          else first_title cs'
      | None => first_title cs'
      end
  end.

(** [not title or len(title) < 3 or looks_like_code(title)] *)
Definition needs_fallback (title : option str) : bool :=
  match title with
  | None => true
  | Some t => is_empty t || (length t <? 3) || looks_like_code (Some t)
  end.

Definition site_origin : str := py "https://einthusan.tv".
Definition untitled : str := py "Untitled Movie".

Definition resolve_img_url (img : node) : str :=
  let img_url :=
    match Dom.or_else (Dom.get img "src")
            (Dom.or_else (Dom.get img "data-src")
               (Dom.or_else (Dom.get img "data-original") (Some []))) with
    | Some u => u
    | None => []
    end in
  if startswith img_url (py "//") then py "https:" ++ img_url else img_url.

Definition process_movie_block (div : node) : M (option movie) :=
  let a := Dom.find (Dom.has_name "a") div in
  let img := Dom.find (Dom.has_name "img") div in
  let title_div :=
    Dom.find (fun n => Dom.has_name "div" n && Dom.has_class "title" n) div in
  match a, img with
  | Some a, Some img =>
      let page_url_full :=
        site_origin ++ match Dom.get a "href" with Some h => h | None => [] end in
      let title0 := first_title (candidates title_div img) in
      title <-
        (if needs_fallback title0
         then
           t <- get_title_from_movie_page page_url_full ;;
           ret (if Dom.truthy t
                then match t with Some t' => t' | None => untitled end
                else untitled)
         else ret (match title0 with Some t => t | None => untitled end)) ;;
      ret (Some (Movie title (resolve_img_url img) page_url_full))
  | _, _ => ret None
  end.

(** The [for b in blocks] loop of [fetch_movies_by_url]. *)
Fixpoint collect_movies (blocks : list node) (movies : list movie)
  : M (list movie) :=
  match blocks with
  | [] => ret movies
  | b :: blocks' =>
      item <- process_movie_block b ;;
      collect_movies blocks'
        (match item with
         | Some m => movies ++ [m]
         | None => movies
         end)
  end.

Definition is_block1 (n : node) : bool :=
  Dom.has_name "div" n && Dom.has_class "block1" n.

Definition fetch_movies_by_url_body (url : str) : M value :=
  content <- fetch_page url ;;
  if falsy content then ret (VMovies [])
  else
    soup <- lift (BeautifulSoup w content) ;;
    movies <- collect_movies (Dom.find_all is_block1 soup) [] ;;
    ret (VMovies movies).

Definition fetch_movies_by_url (url : str) : M value :=
  cached url (fetch_movies_by_url_body url).

Definition cdn_etv : str := py "https://cdn1.einthusan.io/etv".
Definition etv : str := py "etv".

(** The [try] block of [extract_video_url]; [None] stands for falling out of
    it without a [return]. *)
Definition video_url_of (content : value) : outcome (option str) :=
  match BeautifulSoup w content with
  | Raise e => Raise e
  | Ret soup =>
      match Dom.find (Dom.has_attr "id" "UIVideoPlayer") soup with
      | Some player =>
          let mp4_link := Dom.get player "data-mp4-link" in
          match mp4_link with
          | Some link =>
              if Dom.truthy mp4_link && contains etv link
              then match split_first etv link with
                   | Some (_, tail) => Ret (Some (cdn_etv ++ tail))
                   | None => Raise OtherException  (* IndexError *)
                   end
              else Ret None
          | None => Ret None
          end
      | None => Ret None
      end
  end.

Definition extract_video_url (page_url : str) : M (option str) :=
  content <- fetch_page page_url ;;
  if falsy content then ret None
  else lift (try_except (video_url_of content) is_Exception
               (fun _ => Ret None)).

(** [correct_spelling], with its own cache. *)
Definition correct_spelling (user_input : option str) (st : spell_cache w)
  : option str * spell_cache w :=
  match spell_getitem w st user_input with
  | (Some v, st1) => (v, st1)
  | (None, st1) =>
      let v := correct_spelling_body user_input in
      (v, spell_setitem w st1 user_input v)
  end.

End Scraper.

(** ** [urllib.parse.quote_plus]

    The string is encoded in UTF-8 (one byte for a code point below 128, two
    bytes for the others of the 8-bit range); a byte of the always-safe set
    is kept, a space becomes [+], any other byte becomes [%XX] in upper-case
    hexadecimal. *)

Module Urllib.

(** [c.encode('utf-8')] *)
Definition utf8_encode_char (c : ascii) : list ascii :=
  if (code c <? 128)%N then [c]
  else [ascii_of_N (192 + code c / 64); ascii_of_N (128 + code c mod 64)].

Definition utf8_encode (s : str) : list ascii := flat_map utf8_encode_char s.

(** [_ALWAYS_SAFE]: letters, digits and [_.-~]. *)
Definition always_safe (b : ascii) : bool :=
  is_ascii_alnum b || existsb (ascii_eqb b) (py "_.-~").

Definition hex_digit (n : N) : ascii :=
  nth (N.to_nat n) (py "0123456789ABCDEF") zero.

(** ['%{:02X}'.format(b)] *)
Definition percent (b : ascii) : str :=
  [ascii_of_N 37; hex_digit (code b / 16); hex_digit (code b mod 16)].

Definition quote_byte (b : ascii) : str :=
  if always_safe b then [b]
  else if ascii_eqb b (ascii_of_N 32) then [ascii_of_N 43]
  else percent b.

Definition quote_plus (s : str) : str := flat_map quote_byte (utf8_encode s).

End Urllib.

(** ** [search_movie] and the [/watch] route *)

(** The [TTLCache] of [search_movie], keyed by the pair of its arguments. *)
Record SearchCache := {
  search_movie_cache : Type;
  search_getitem :
    search_movie_cache -> str * str -> option value * search_movie_cache;
  search_setitem :
    search_movie_cache -> str * str -> value -> search_movie_cache
}.

(** What a route hands to [jsonify], with its status. *)
Inductive reply :=
| Json_error (status : nat) (error : str)
| Json_watch (title video_url : str).

Section Routes.

Variable w : World.

Notation "x <- m ;; f" := (bind w m (fun x => f))
  (at level 61, m at next level, right associativity).

Definition search_url (lang_code movie_title : str) : str :=
  py "https://einthusan.tv/movie/results/?lang=" ++ lang_code
  ++ py "&query=" ++ Urllib.quote_plus movie_title.

(** The body of [search_movie]. *)
Definition search_movie_body (language movie_title : str) : M w value :=
  match LANGUAGE_CODES_get (str_lower language) with
  | Some lang_code =>
      if is_empty lang_code then ret w (VMovies [])
      else fetch_movies_by_url w (search_url lang_code movie_title)
  | None => ret w (VMovies [])
  end.

(** [search_movie] under [@cached(cache=search_movie_cache)]. *)
Definition search_movie (sc : SearchCache) (language movie_title : str)
  (st : search_movie_cache sc * fetch_page_cache w)
  : outcome value * (search_movie_cache sc * fetch_page_cache w) :=
  match search_getitem sc (fst st) (language, movie_title) with
  | (Some v, s1) => (Ret v, (s1, snd st))
  | (None, s1) =>
      match search_movie_body language movie_title (snd st) with
      | (Ret v, p) =>
          (Ret v, (search_setitem sc s1 (language, movie_title) v, p))
      | (Raise e, p) => (Raise e, (s1, p))
      end
  end.

(** [request.args.get(key, "").strip()] *)
Definition arg_stripped (arg : option str) : str :=
  strip (match arg with Some v => v | None => [] end).

Definition unknown : str := py "Unknown".

(** The [/watch] route; [unquote] is [urllib.parse.unquote], [url_arg] and
    [title_arg] the query parameters [url] and [title] when present. *)
Definition watch (unquote : str -> str) (url_arg title_arg : option str)
  : M w reply :=
  let movie_url := arg_stripped url_arg in
  let movie_title_from_url := arg_stripped title_arg in
  if is_empty movie_url
  then ret w (Json_error 400 (py "Movie URL missing"))
  else
    title <-
      (if negb (is_empty movie_title_from_url)
       then ret w (Some (unquote movie_title_from_url))
       else
         t <- get_title_from_movie_page w movie_url ;;
         ret w (if Dom.truthy t then clean_title t else t)) ;;
    let title :=
      if negb (Dom.truthy title) || looks_like_code title then unknown
      else match title with Some t => t | None => unknown end in
    video_url <- extract_video_url w movie_url ;;
    if negb (Dom.truthy video_url)
    then ret w (Json_error 500
                  (py "Failed to extract video URL from the page."))
    else ret w (Json_watch title
                  (match video_url with Some u => u | None => [] end)).

End Routes.

(** ** Vocabulary of the statements *)

Definition at_end (e : cursor) : option cursor :=
  if is_empty (rest e) then Some e else None.

Definition is_some {A} (o : option A) : bool :=
  match o with Some _ => true | None => false end.

(** The conditions of the Code Detector in the words of the specification,
    on the trimmed string. *)
Definition SingleToken (t : str) : Prop :=
  t <> [] /\ Forall (fun c => isspace c = false) t.

Definition LettersAndDigits (t : str) : Prop :=
  Forall (fun c => is_ascii_alnum c = true) t.

Definition ContainsDigit (t : str) : Prop :=
  Exists (fun c => isdecimal c = true) t.

Definition NoVowelAmongLetters (t : str) : Prop :=
  Forall (fun c => is_vowel c = false) (filter isalpha t).

Definition CodeShape (t : str) : Prop :=
  SingleToken t /\ LettersAndDigits t /\ 2 <= length t <= 8
  /\ (ContainsDigit t \/ NoVowelAmongLetters t).

Definition PurelyDigits (t : str) : Prop :=
  t <> [] /\ Forall (fun c => isdecimal c = true) t.

(** A pattern that cannot match the empty string: some character is
    consumed on every path through it. *)
Fixpoint consumes (r : regex) : bool :=
  match r with
  | CharIn _ => true
  | Cat r1 r2 => consumes r1 || consumes r2
  | Alt r1 r2 => consumes r1 && consumes r2
  | Eps | Star _ | Bol | Eol => false
  end.

(** No rule of the Title Normalizer matches anywhere in [y]. *)
Definition settled (y : str) : bool :=
  forallb (fun p => negb (search p y)) TITLE_PATTERNS.

(** A concrete world: a given network and parser, and caches kept as
    association lists that never expire or evict. *)
Fixpoint alist_get {K V : Type} (eqb : K -> K -> bool) (l : list (K * V))
  (k : K) : option V :=
  match l with
  | [] => None
  | (k', v) :: t => if eqb k' k then Some v else alist_get eqb t k
  end.

Definition opt_str_eqb (a b : option str) : bool :=
  match a, b with
  | None, None => true
  | Some x, Some y => str_eqb x y
  | _, _ => false
  end.

Definition simple_world (net : str -> outcome response)
  (parser : value -> outcome node) : World :=
  {| SESSION_get := net;
     BeautifulSoup := parser;
     fetch_page_cache := list (str * value);
     cache_getitem := fun st k => (alist_get str_eqb st k, st);
     cache_setitem := fun st k v => (k, v) :: st;
     spell_cache := list (option str * option str);
     spell_getitem := fun st k => (alist_get opt_str_eqb st k, st);
     spell_setitem := fun st k v => (k, v) :: st |}.

(** A block has what [process_movie_block] requires: a link and an image. *)
Definition has_link_and_image (div : node) : bool :=
  is_some (Dom.find (Dom.has_name "a") div)
  && is_some (Dom.find (Dom.has_name "img") div).

(** A cleaned candidate is accepted by the Listing Parser. *)
Definition qualifies (cleaned : option str) : bool :=
  match cleaned with
  | Some t => negb (is_empty t) && (2 <? length t) && negb (str_isdigit t)
  | None => false
  end.

Definition cdn_origin : str := py "https://cdn1.einthusan.io/".

(** Sample pages and networks for the concrete runs. *)
Definition page_bytes : bytes := [Byte.x3c; Byte.x70; Byte.x3e].

Definition net_status (code : Z) : str -> outcome response :=
  fun _ => Ret (Response code page_bytes).

Definition net_timeout : str -> outcome response :=
  fun _ => Raise Timeout.

(** A GET that raises an exception outside [requests.RequestException]. *)
Definition net_other_error : str -> outcome response :=
  fun _ => Raise OtherException.

Definition player_page (link : string) : node :=
  Tag (py "[document]") []
    [Tag (py "html") []
       [Tag (py "div")
          [(py "id", py "UIVideoPlayer"); (py "data-mp4-link", py link)] []]].

Definition listing_block (alt : string) : node :=
  Tag (py "div") [(py "class", py "block1")]
    [Tag (py "a") [(py "href", py "/movie/watch/53BA/")]
       [Tag (py "img") [(py "src", py "//cdn/x.jpg"); (py "alt", py alt)] []]].

Definition block_without_image : node :=
  Tag (py "div") [(py "class", py "block1")]
    [Tag (py "a") [(py "href", py "/movie/watch/1S2Q/")] [Text (py "x")]].

Definition detail_page (og_title : string) : node :=
  Tag (py "[document]") []
    [Tag (py "head") []
       [Tag (py "meta")
          [(py "property", py "og:title"); (py "content", py og_title)] []]].


(** Counting characters: [cnt c s] is the number of occurrences of [c] in
    [s], and [sum_chars f] the sum of [f] over the 256 characters. *)
Definition cnt (c : ascii) (s : str) : nat :=
  length (Difflib.indices_from c s 0).

Definition all_chars : list ascii := map ascii_of_nat (seq 0 256).

Definition sum_over (l : list ascii) (f : ascii -> nat) : nat :=
  fold_right (fun c acc => f c + acc) 0 l.

Definition sum_chars (f : ascii -> nat) : nat := sum_over all_chars f.

(** The size of the intersection of two strings taken as multisets. *)
Definition common (s t : str) : nat :=
  sum_chars (fun c => Nat.min (cnt c s) (cnt c t)).

(** [s[lo:hi]] *)
Definition slice (s : str) (lo hi : nat) : str := firstn (hi - lo) (skipn lo s).


(** A matching block inside the window [alo:ahi] of [a] and [blo:bhi] of
    [b]. *)
Definition block_ok (a b : str) (alo ahi blo bhi : nat) (m : Difflib.triple)
  : Prop :=
  let '(i, j, k) := m in
  alo <= i /\ i + k <= ahi /\ blo <= j /\ j + k <= bhi
  /\ forall t, t < k -> Difflib.a_at a (i + t) = Difflib.b_at b (j + t).

(** The [j2len] dict after [m] rows of the window, the last of which is row
    [alo + m - 1]: an entry [k] at [j] is a match of length [k] that ends at
    that row and at [j]. *)
Definition row_ok (a b : str) (alo blo bhi m : nat) (d : list (nat * nat))
  : Prop :=
  forall j,
    0 < Difflib.j2len_get d j ->
    Difflib.j2len_get d j <= m
    /\ Difflib.j2len_get d j + blo <= j + 1
    /\ j < bhi
    /\ forall t, t < Difflib.j2len_get d j ->
                 Difflib.a_at a (alo + m - 1 - t) = Difflib.b_at b (j - t).


(** A window of the work list of [get_matching_blocks] for sequences of
    lengths [la] and [lb]. *)
Definition range_ok (la lb : nat) (r : Difflib.range4) : Prop :=
  let '(alo, ahi, blo, bhi) := r in
  alo <= ahi /\ ahi <= la /\ blo <= bhi /\ bhi <= lb.

(** The number of steps the work list can still take. *)
Fixpoint queue_weight (q : list Difflib.range4) : nat :=
  match q with
  | [] => 0
  | (alo, ahi, _, _) :: q' => 2 * (ahi - alo) + 1 + queue_weight q'
  end.

(** What the windows of the work list can still contribute. *)
Fixpoint queue_common (a b : str) (q : list Difflib.range4) : nat :=
  match q with
  | [] => 0
  | (alo, ahi, blo, bhi) :: q' =>
      common (slice a alo ahi) (slice b blo bhi) + queue_common a b q'
  end.

(** [sum(triple[-1] for triple in blocks)] *)
Definition total (blocks : list Difflib.triple) : nat :=
  fold_right (fun t s => snd t + s) 0 blocks.


(** Every live entry of the cache of [correct_spelling] is the value the
    function computes for its key. *)
Definition spell_cache_sound (w : World) (st : spell_cache w) : Prop :=
  forall k v st',
    spell_getitem w st k = (Some v, st') -> v = correct_spelling_body k.

Definition offline_world : World :=
  simple_world net_timeout (fun _ => Raise OtherException).

(** [Subseq s t]: [s] is [t] with some characters deleted. *)
Inductive Subseq : str -> str -> Prop :=
| Subseq_nil : Subseq [] []
| Subseq_drop x s t : Subseq s t -> Subseq s (x :: t)
| Subseq_keep x s t : Subseq s t -> Subseq (x :: s) (x :: t).

(** Neither the first nor the last character of [s] is whitespace. *)
Definition no_outer_space (s : str) : Prop :=
  (forall c, hd_error s = Some c -> isspace c = false)
  /\ (forall c, hd_error (rev s) = Some c -> isspace c = false).

(** What every record of the Listing Parser satisfies. *)
Definition well_formed (m : movie) : Prop :=
  title m <> []
  /\ no_outer_space (title m)
  /\ startswith (page_url m) site_origin = true
  /\ startswith (img_url m) (py "//") = false.

(** An entry just stored is found by the next lookup of its key. *)
Definition stores_live (w : World) : Prop :=
  forall s k x,
    exists s', cache_getitem w (cache_setitem w s k x) k = (Some x, s').

(** Reading back one character from the output of [quote_plus]. *)
Definition unhex (c : ascii) : N :=
  if isdecimal c then code c - 48 else code c - 55.

Definition unhex2 (h1 h2 : ascii) : N := 16 * unhex h1 + unhex h2.

Definition decode_quoted (s : str) : option (ascii * str) :=
  match s with
  | [] => None
  | c :: t =>
      if ascii_eqb c (ascii_of_N 43) then Some (ascii_of_N 32, t)
      else if ascii_eqb c (ascii_of_N 37) then
        match t with
        | h1 :: h2 :: t1 =>
            if (unhex2 h1 h2 <? 128)%N then Some (ascii_of_N (unhex2 h1 h2), t1)
            else
              match t1 with
              | _ :: h3 :: h4 :: t2 =>
                  Some (ascii_of_N ((unhex2 h1 h2 - 192) * 64
                                    + (unhex2 h3 h4 - 128)), t2)
              | _ => None
              end
        | _ => None
        end
      else Some (c, t)
  end.

(** The characters [quote_plus] can produce. *)
Definition url_safe (c : ascii) : bool :=
  Urllib.always_safe c || ascii_eqb c (ascii_of_N 43)
  || ascii_eqb c (ascii_of_N 37).

(** The three texts the Page Title Extractor looks at, in its order: the
    content of the og:title meta tag, the text of the title element and the
    text of the first h1. *)
Definition title_sources (soup : node) : list (option str) :=
  [ match Dom.find (fun n => Dom.has_name "meta" n
                             && Dom.has_attr "property" "og:title" n) soup with
    | Some m => Dom.get m "content"
    | None => None
    end;
    option_map Dom.text (Dom.find (Dom.has_name "title") soup);
    option_map Dom.text (Dom.find (Dom.has_name "h1") soup) ].

(** The request for [url] fails: a request exception, or a 4xx or 5xx
    status. *)
Definition fetch_fails (w : World) (url : str) : Prop :=
  match SESSION_get w url with
  | Raise e => is_RequestException e = true
  | Ret resp => (400 <= status_code resp < 600)%Z
  end.

(** * Properties *)

(** ** Characters and strings *)

Ltac char_cases c :=
  destruct c as [[] [] [] [] [] [] [] []]; try reflexivity; try discriminate.

Lemma alnum_not_space c : is_ascii_alnum c = true -> isspace c = false.
Proof. char_cases c. Qed.

Lemma alnum_isdigit c : is_ascii_alnum c = true -> isdigit c = isdecimal c.
Proof. char_cases c. Qed.

Lemma isdecimal_alnum c : isdecimal c = true -> is_ascii_alnum c = true.
Proof. char_cases c. Qed.

Lemma isdecimal_isdigit c : isdecimal c = true -> isdigit c = true.
Proof. char_cases c. Qed.

Lemma alnum_letter_or_decimal c :
  is_ascii_alnum c = true -> isdecimal c = false -> isalpha c = true.
Proof. char_cases c. Qed.

Lemma is_empty_nil (s : str) : is_empty s = true <-> s = [].
Proof. destruct s; simpl; split; congruence. Qed.

Lemma is_empty_false (s : str) : is_empty s = false <-> s <> [].
Proof. destruct s; simpl; split; congruence. Qed.

Lemma lstrip_forallb p s : forallb p s = true -> forallb p (lstrip s) = true.
Proof.
  induction s as [|c t IH]; simpl; auto.
  intros H. destruct (isspace c); auto.
  apply andb_true_iff in H. apply IH, H.
Qed.

Lemma forallb_rev (p : ascii -> bool) s : forallb p (rev s) = forallb p s.
Proof.
  induction s as [|c t IH]; simpl; auto.
  rewrite forallb_app, IH. simpl. rewrite andb_true_r. apply andb_comm.
Qed.

Lemma strip_forallb p s : forallb p s = true -> forallb p (strip s) = true.
Proof.
  intros H. unfold strip, rstrip. rewrite forallb_rev.
  apply lstrip_forallb. rewrite forallb_rev. apply lstrip_forallb, H.
Qed.

Lemma lstrip_head s : match lstrip s with
                      | [] => True
                      | c :: _ => isspace c = false
                      end.
Proof.
  induction s as [|c t IH]; simpl; auto.
  destruct (isspace c) eqn:E; auto.
Qed.

Lemma lstrip_fixed c t : isspace c = false -> lstrip (c :: t) = c :: t.
Proof. intros H. simpl. now rewrite H. Qed.

Lemma lstrip_snoc s c :
  isspace c = false -> lstrip (s ++ [c]) = lstrip s ++ [c].
Proof.
  intros H. induction s as [|x t IH]; simpl.
  - now rewrite H.
  - destruct (isspace x); auto.
Qed.

Lemma rstrip_cons c t : isspace c = false -> rstrip (c :: t) = c :: rstrip t.
Proof.
  intros H. unfold rstrip. simpl. rewrite lstrip_snoc by assumption.
  rewrite rev_app_distr. reflexivity.
Qed.

Lemma lstrip_idem s : lstrip (lstrip s) = lstrip s.
Proof.
  pose proof (lstrip_head s) as H. destruct (lstrip s) as [|c t]; auto.
  now apply lstrip_fixed.
Qed.

Lemma rstrip_idem s : rstrip (rstrip s) = rstrip s.
Proof. unfold rstrip. now rewrite rev_involutive, lstrip_idem. Qed.

(** A stripped string is left alone by [strip]. *)
Lemma strip_idem s : strip (strip s) = strip s.
Proof.
  unfold strip. pose proof (lstrip_head s) as H.
  destruct (lstrip s) as [|c t] eqn:E.
  - reflexivity.
  - rewrite rstrip_cons by assumption.
    rewrite lstrip_fixed by assumption.
    rewrite <- rstrip_cons by assumption. apply rstrip_idem.
Qed.

Lemma split_ws_token cur s :
  Forall (fun c => isspace c = false) s ->
  cur ++ s <> [] ->
  split_ws cur s = [rev cur ++ s].
Proof.
  revert cur. induction s as [|c t IH]; intros cur Hs Hne; simpl.
  - rewrite app_nil_r in *. destruct cur; simpl; congruence.
  - inversion Hs as [|? ? Hc Ht]; subst. rewrite Hc.
    rewrite IH; auto.
    + simpl. now rewrite <- app_assoc.
    + discriminate.
Qed.

(** A string without whitespace is its own single token. *)
Lemma split_token s :
  s <> [] -> Forall (fun c => isspace c = false) s -> split s = [s].
Proof. intros Hne Hs. unfold split. now rewrite split_ws_token. Qed.

(** ** The matcher on character classes *)

Lemma star_class_at_end p n c :
  length (rest c) < n ->
  is_some (star_loop (rmatch (CharIn p)) at_end n c) = forallb p (rest c).
Proof.
  revert c. induction n as [|n IH]; intros [q s] Hn; simpl in Hn; [lia|].
  simpl. destruct s as [|x t]; simpl; [reflexivity|].
  destruct (p x); simpl; [|reflexivity].
  destruct (length t <? S (length t)) eqn:E.
  2:{ apply Nat.ltb_ge in E. lia. }
  specialize (IH (advance (Cursor q (x :: t)) t)). simpl in IH.
  simpl in Hn. rewrite <- IH by lia.
  destruct (star_loop _ _ n _); reflexivity.
Qed.

Lemma fullmatch_plus_class p s :
  fullmatch (plus (CharIn p)) s = negb (is_empty s) && forallb p s.
Proof.
  unfold fullmatch, plus. simpl. destruct s as [|x t]; simpl; [reflexivity|].
  destruct (p x); simpl; [|reflexivity].
  apply (star_class_at_end p (S (length t)) (Cursor 1 t)). simpl. lia.
Qed.

Lemma search_from_class p q s :
  is_some (search_from (CharIn p) q s) = existsb p s.
Proof.
  revert q. induction s as [|x t IH]; intros q; simpl; [reflexivity|].
  unfold match_at. simpl. destruct (p x); simpl; [reflexivity|]. apply IH.
Qed.

Lemma search_class p s : search (CharIn p) s = existsb p s.
Proof. apply (search_from_class p 0 s). Qed.

(** ** The Code Detector *)

Lemma forallb_Forall_true (p : ascii -> bool) l :
  forallb p l = true <-> Forall (fun c => p c = true) l.
Proof.
  induction l as [|x t IH]; simpl.
  - split; auto.
  - rewrite andb_true_iff, IH. split.
    + intros [? ?]; now constructor.
    + intros H; inversion H; auto.
Qed.

Lemma existsb_Exists_true (p : ascii -> bool) l :
  existsb p l = true <-> Exists (fun c => p c = true) l.
Proof.
  induction l as [|x t IH]; simpl.
  - split; [discriminate | intros H; inversion H].
  - rewrite orb_true_iff, IH. split.
    + intros [? | ?]; [now left | now right].
    + intros H; inversion H; auto.
Qed.

Lemma existsb_false_Forall (p : ascii -> bool) l :
  existsb p l = false <-> Forall (fun c => p c = false) l.
Proof.
  induction l as [|x t IH]; simpl.
  - split; auto.
  - rewrite orb_false_iff, IH. split.
    + intros [? ?]; now constructor.
    + intros H; inversion H; auto.
Qed.

Lemma alnum_digits l :
  Forall (fun c => is_ascii_alnum c = true) l ->
  existsb isdigit l = existsb isdecimal l
  /\ forallb isdigit l = forallb isdecimal l.
Proof.
  induction 1 as [|x t Hx _ [IH1 IH2]]; simpl; auto.
  now rewrite (alnum_isdigit _ Hx), IH1, IH2.
Qed.

Lemma letters_when_no_decimal l :
  Forall (fun c => is_ascii_alnum c = true) l ->
  existsb isdecimal l = false ->
  filter isalpha l = l.
Proof.
  induction 1 as [|x t Hx _ IH]; simpl; auto.
  intros H. apply orb_false_iff in H as [Hd Ht].
  rewrite (alnum_letter_or_decimal _ Hx Hd). f_equal. auto.
Qed.

(** The detector past its guards, on a trimmed string that is not empty. *)
Lemma looks_like_code_trimmed t :
  t <> [] ->
  (str_isdigit t = false
   /\ (length (split t) =? 1) && fullmatch (plus (CharIn is_ascii_alnum)) t
      && ((2 <=? length t) && (length t <=? 8))
      && (existsb isdigit t
          || (if is_empty (filter isalpha t) then false
              else negb (search (CharIn is_vowel) (filter isalpha t)))) = true)
  <-> CodeShape t /\ ~ PurelyDigits t.
Proof.
  intros Hne. rewrite fullmatch_plus_class, search_class.
  unfold CodeShape, SingleToken, LettersAndDigits, ContainsDigit,
    NoVowelAmongLetters, PurelyDigits, str_isdigit.
  apply is_empty_false in Hne as He. rewrite He. cbn [negb andb].
  split.
  - intros [Hd H].
    apply andb_true_iff in H as [H HE].
    apply andb_true_iff in H as [H HCD].
    apply andb_true_iff in H as [HA HB].
    apply andb_true_iff in HCD as [HC HD].
    apply forallb_Forall_true in HB as Hal.
    destruct (alnum_digits _ Hal) as [E1 E2].
    repeat split; auto.
    + eapply Forall_impl; [|exact Hal]. apply alnum_not_space.
    + now apply Nat.leb_le.
    + now apply Nat.leb_le.
    + apply orb_true_iff in HE as [Hd1 | Hv].
      * left. apply existsb_Exists_true. congruence.
      * right. destruct (is_empty (filter isalpha t)); [discriminate|].
        apply existsb_false_Forall. now apply negb_true_iff.
    + intros [_ Hp]. apply forallb_Forall_true in Hp. congruence.
  - intros [[[_ Hs] [Hal [[Hlo Hhi] Hdv]]] Hnp].
    destruct (alnum_digits _ Hal) as [E1 E2].
    split.
    + rewrite E2. destruct (forallb isdecimal t) eqn:E; auto.
      exfalso. apply Hnp. split; auto. now apply forallb_Forall_true.
    + apply andb_true_iff; split; [apply andb_true_iff; split|].
      * apply andb_true_iff; split.
        -- now rewrite (split_token _ Hne Hs).
        -- now apply forallb_Forall_true.
      * apply andb_true_iff; split; now apply Nat.leb_le.
      * rewrite E1. destruct (existsb isdecimal t) eqn:Ed; auto.
        rewrite (letters_when_no_decimal _ Hal Ed), He. simpl.
        destruct Hdv as [Hd | Hv].
        -- apply existsb_Exists_true in Hd. congruence.
        -- rewrite (letters_when_no_decimal _ Hal Ed) in Hv.
           apply negb_true_iff. now apply existsb_false_Forall.
Qed.

(** C1 (as amended): the Code Detector returns true exactly when the trimmed
    input is a single whitespace-delimited token of letters and digits only,
    of length 2 to 8, with at least one digit or no vowel among its letters,
    and is not purely digits; it is true for "53BA" and false for
    "Kairaj". *)
Theorem looks_like_code_iff :
  (forall s : str,
      looks_like_code (Some s) = true
      <-> CodeShape (strip s) /\ ~ PurelyDigits (strip s))
  /\ looks_like_code (Some (py "53BA")) = true
  /\ looks_like_code (Some (py "Kairaj")) = false.
Proof.
  split; [|split; reflexivity].
  intros s. unfold looks_like_code.
  destruct (is_empty s) eqn:Es.
  { apply is_empty_nil in Es. subst s. split; [discriminate|].
    intros [[[H _] _] _]. now elim H. }
  destruct (is_empty (strip s)) eqn:Et.
  { apply is_empty_nil in Et. rewrite Et. split; [discriminate|].
    intros [[[H _] _] _]. now elim H. }
  apply is_empty_false in Et.
  rewrite <- (looks_like_code_trimmed _ Et).
  destruct (str_isdigit (strip s)); split.
  - discriminate.
  - intros [? _]. discriminate.
  - auto.
  - intros [_ H]. exact H.
Qed.

(** C1 as stated fails: "96" meets every listed condition and is not
    flagged, and "MukD", whose letters include the vowel u, is not flagged
    either. *)
Lemma looks_like_code_counterexample :
  ~ (looks_like_code (Some (py "96")) = true <-> CodeShape (strip (py "96")))
  /\ looks_like_code (Some (py "MukD")) = false.
Proof.
  split; [|reflexivity].
  intros [_ H]. assert (E : looks_like_code (Some (py "96")) = true).
  { apply H. unfold CodeShape, SingleToken, LettersAndDigits, ContainsDigit.
    cbn. repeat split; try lia; try discriminate; repeat constructor. }
  discriminate E.
Qed.

(** C6: a string of digits only, such as "96", is never flagged, and the
    Title Normalizer maps "96 (2018)" to "96". *)
Theorem digits_not_code_and_year_stripped (s : str) :
  s <> [] ->
  forallb isdigit s = true ->
  looks_like_code (Some s) = false
  /\ looks_like_code (Some (py "96")) = false
  /\ clean_title (Some (py "96 (2018)")) = Some (py "96").
Proof.
  intros Hne Hd. split; [|split; vm_compute; reflexivity].
  unfold looks_like_code.
  destruct (is_empty s); [reflexivity|].
  destruct (is_empty (strip s)) eqn:Et; [reflexivity|].
  unfold str_isdigit. now rewrite Et, (strip_forallb _ _ Hd).
Qed.

Lemma digits_not_code_and_year_stripped_witness :
  looks_like_code (Some (py "2018")) = false
  /\ looks_like_code (Some (py "96")) = false
  /\ clean_title (Some (py "96 (2018)")) = Some (py "96").
Proof.
  apply (digits_not_code_and_year_stripped (py "2018")).
  - discriminate.
  - reflexivity.
Defined.

(** C3: "Vikram (2022) Tamil in HD - Einthusan" normalizes to "Vikram"; the
    composite year+language+quality+brand rule is the first of the list and
    removes the whole tail by itself. *)
Theorem clean_title_vikram :
  clean_title (Some (py "Vikram (2022) Tamil in HD - Einthusan"))
  = Some (py "Vikram")
  /\ hd_error TITLE_PATTERNS = Some pattern_year_lang_brand
  /\ sub pattern_year_lang_brand (py "Vikram (2022) Tamil in HD - Einthusan")
     = py "Vikram".
Proof. repeat split; vm_compute; reflexivity. Qed.

(** ** The matcher and [sub] *)

(** Whatever the matcher returns was returned by its continuation, at a
    cursor that is not behind the start; it is strictly ahead when the
    pattern consumes. *)
Lemma rmatch_progress r :
  forall c k e,
    rmatch r c k = Some e ->
    exists c1, k c1 = Some e
               /\ length (rest c1) + (if consumes r then 1 else 0)
                  <= length (rest c).
Proof.
  induction r as [|p|r1 IH1 r2 IH2|r1 IH1 r2 IH2|r1 IH1| |]; intros c k e H;
    [simpl in H | simpl in H | simpl in H | simpl in H
    | change (star_loop (rmatch r1) k (S (length (rest c))) c = Some e) in H
    | simpl in H | simpl in H].
  - exists c. simpl. split; [assumption | lia].
  - destruct (rest c) as [|x t] eqn:E; [discriminate|].
    destruct (p x); [|discriminate].
    exists (advance c t). simpl. split; [assumption | lia].
  - apply IH1 in H as [c1 [H L1]]. apply IH2 in H as [c2 [H L2]].
    exists c2. split; [assumption|]. simpl.
    destruct (consumes r1), (consumes r2); simpl; lia.
  - destruct (rmatch r1 c k) eqn:E1.
    + inversion H; subst. apply IH1 in E1 as [c1 [Hk L]].
      exists c1. split; [assumption|]. simpl.
      destruct (consumes r1), (consumes r2); simpl in *; lia.
    + apply IH2 in H as [c1 [Hk L]].
      exists c1. split; [assumption|]. simpl.
      destruct (consumes r1), (consumes r2); simpl in *; lia.
  - simpl. generalize dependent (S (length (rest c))). intros n.
    revert c. induction n as [|n IHn]; intros c H; simpl in H.
    + exists c. split; [assumption | lia].
    + destruct (rmatch r1 c _) eqn:E1.
      * inversion H; subst. apply IH1 in E1 as [c1 [Hk L]].
        destruct (length (rest c1) <? length (rest c)) eqn:Lt.
        -- apply IHn in Hk as [c2 [Hk2 L2]]. exists c2.
           split; [assumption | lia].
        -- exists c1. split; [assumption | lia].
      * exists c. split; [assumption | lia].
  - destruct (pos c =? 0); [|discriminate].
    exists c. simpl. split; [assumption | lia].
  - exists c. simpl. split; [|lia].
    destruct (rest c) as [|x [|y t]]; try discriminate; auto.
    destruct (ascii_eqb x newline); [assumption | discriminate].
Qed.

(** The matcher depends on its continuation only through the values the
    continuation takes. *)
Lemma rmatch_ext r :
  forall c k1 k2,
    (forall c', k1 c' = k2 c') -> rmatch r c k1 = rmatch r c k2.
Proof.
  induction r as [|p|r1 IH1 r2 IH2|r1 IH1 r2 IH2|r1 IH1| |]; intros c k1 k2 H;
    [simpl | simpl | simpl | simpl
    | change (star_loop (rmatch r1) k1 (S (length (rest c))) c
              = star_loop (rmatch r1) k2 (S (length (rest c))) c)
    | simpl | simpl].
  - apply H.
  - destruct (rest c) as [|x t]; [reflexivity|].
    destruct (p x); [apply H | reflexivity].
  - apply IH1. intros c'. now apply IH2.
  - now rewrite (IH1 c k1 k2 H), (IH2 c k1 k2 H).
  - generalize (S (length (rest c))). intros n. revert c.
    induction n as [|n IHn]; intros c; simpl; [apply H|].
    rewrite (IH1 c _ (fun c1 =>
                        if length (rest c1) <? length (rest c)
                        then star_loop (rmatch r1) k2 n c1
                        else k2 c1)).
    + now rewrite H.
    + intros c'. destruct (length (rest c') <? length (rest c)); auto.
  - destruct (pos c =? 0); [apply H | reflexivity].
  - destruct (rest c) as [|x [|y t]]; try reflexivity; [apply H|].
    destruct (ascii_eqb x newline); [apply H | reflexivity].
Qed.

(** The bound on the iterations of a repetition is never reached: any two
    bounds above the number of characters left give the same result. *)
Lemma star_loop_fuel r k n1 :
  forall n2 c,
    length (rest c) < n1 -> length (rest c) < n2 ->
    star_loop (rmatch r) k n1 c = star_loop (rmatch r) k n2 c.
Proof.
  induction n1 as [|n1 IH]; intros n2 c H1 H2; [lia|].
  destruct n2 as [|n2]; [lia|]. simpl.
  rewrite (rmatch_ext r c _
             (fun c1 =>
                if length (rest c1) <? length (rest c)
                then star_loop (rmatch r) k n2 c1
                else k c1)); [reflexivity|].
  intros c'. destruct (length (rest c') <? length (rest c)) eqn:E;
    [|reflexivity].
  apply Nat.ltb_lt in E. apply IH; lia.
Qed.

Lemma match_at_consumes r c e :
  consumes r = true -> match_at r c = Some e ->
  length (rest e) < length (rest c).
Proof.
  intros Hc H. apply rmatch_progress in H as [c1 [Hk L]].
  inversion Hk; subst. rewrite Hc in L. lia.
Qed.

(** Every rule of the Title Normalizer consumes: [sub] never meets a match
    of length zero. *)
Lemma title_patterns_consume : forallb consumes TITLE_PATTERNS = true.
Proof. reflexivity. Qed.

(** The bound on the number of steps of [sub] is never reached: any two
    bounds above the number of characters left give the same result. *)
Lemma sub_loop_fuel r f1 :
  forall f2 c,
    length (rest c) < f1 -> length (rest c) < f2 ->
    sub_loop f1 r c = sub_loop f2 r c.
Proof.
  induction f1 as [|f1 IH]; intros f2 c H1 H2; [lia|].
  destruct f2 as [|f2]; [lia|]. simpl.
  assert (Hstep : match rest c with
                  | [] => []
                  | x :: t => x :: sub_loop f1 r (advance c t)
                  end
                  = match rest c with
                    | [] => []
                    | x :: t => x :: sub_loop f2 r (advance c t)
                    end).
  { destruct (rest c) as [|x t] eqn:E; [reflexivity|].
    f_equal. apply IH; simpl in *; lia. }
  destruct (match_at r c) as [e|]; [|exact Hstep].
  destruct (length (rest e) <? length (rest c)) eqn:Lt; [|exact Hstep].
  apply Nat.ltb_lt in Lt. apply IH; lia.
Qed.

Lemma sub_loop_no_match r fuel :
  forall q s, search_from r q s = None -> sub_loop fuel r (Cursor q s) = s.
Proof.
  induction fuel as [|f IH]; intros q s H; [reflexivity|].
  simpl. destruct s as [|x t]; simpl in H.
  - destruct (match_at r (Cursor q [])); [discriminate | reflexivity].
  - destruct (match_at r (Cursor q (x :: t))); [discriminate|].
    simpl. f_equal. apply IH, H.
Qed.

(** A rule that matches nowhere leaves the string as it is. *)
Lemma sub_no_match r s : search r s = false -> sub r s = s.
Proof.
  unfold search, sub. intros H. apply sub_loop_no_match.
  destruct (search_from r 0 s); [discriminate | reflexivity].
Qed.

Lemma apply_patterns_settled ps y :
  forallb (fun p => negb (search p y)) ps = true -> apply_patterns ps y = y.
Proof.
  unfold apply_patterns. induction ps as [|p ps IH]; simpl; [reflexivity|].
  intros H. apply andb_true_iff in H as [Hp Hps].
  apply negb_true_iff in Hp. rewrite (sub_no_match _ _ Hp). apply IH, Hps.
Qed.

(** ** The Title Normalizer *)

Lemma clean_title_stripped x y : clean_title x = Some y -> strip y = y.
Proof.
  destruct x as [t|]; simpl; [|discriminate].
  destruct (is_empty t); [discriminate|].
  intros H. inversion H. apply strip_idem.
Qed.

(** C2 (as amended): the Title Normalizer is idempotent on every input
    whose normal form is not empty and is matched by none of the rules any
    more, as for "Vikram (2022) Tamil in HD - Einthusan" and "96 (2018)". *)
Theorem clean_title_idempotent_settled (x : option str) (y : str) :
  clean_title x = Some y ->
  y <> [] ->
  settled y = true ->
  clean_title (clean_title x) = clean_title x.
Proof.
  intros Hx Hne Hs. rewrite Hx. unfold clean_title.
  apply is_empty_false in Hne. rewrite Hne.
  rewrite (clean_title_stripped _ _ Hx).
  rewrite (apply_patterns_settled _ _ Hs).
  now rewrite (clean_title_stripped _ _ Hx).
Qed.

Lemma clean_title_idempotent_settled_witness :
  clean_title (clean_title (Some (py "96 (2018)")))
  = clean_title (Some (py "96 (2018)")).
Proof.
  apply (clean_title_idempotent_settled (Some (py "96 (2018)")) (py "96")).
  - vm_compute. reflexivity.
  - discriminate.
  - vm_compute. reflexivity.
Defined.

(** C2 as stated fails: of two trailing years only the last is removed, so
    a second pass still changes the result; and a title made of noise only
    becomes the empty string, which a second pass turns into [None]. *)
Lemma clean_title_not_idempotent :
  clean_title (clean_title (Some (py "A (2019) (2018)")))
  <> clean_title (Some (py "A (2019) (2018)"))
  /\ clean_title (clean_title (Some (py "(2019)")))
     <> clean_title (Some (py "(2019)")).
Proof. split; vm_compute; discriminate. Qed.

(** ** The Fetcher *)

Lemma cached_hit w k func st v st1 :
  cache_getitem w st k = (Some v, st1) ->
  cached w k func st = (Ret v, st1).
Proof. unfold cached. now intros ->. Qed.

Lemma cached_miss w k func st st1 :
  cache_getitem w st k = (None, st1) ->
  cached w k func st
  = match func st1 with
    | (Ret v, st2) => (Ret v, cache_setitem w st2 k v)
    | (Raise e, st2) => (Raise e, st2)
    end.
Proof. unfold cached. now intros ->. Qed.

(** The body of [fetch_page] by cases on what the GET does. *)
Lemma fetch_page_body_cases w url :
  match SESSION_get w url with
  | Raise e =>
      fetch_page_body w url
      = if is_RequestException e then Ret VNone else Raise e
  | Ret resp =>
      fetch_page_body w url
      = if ((400 <=? status_code resp) && (status_code resp <? 600))%Z
        then Ret VNone
        else Ret (VBytes (content resp))
  end.
Proof.
  unfold fetch_page_body, raise_for_status.
  destruct (SESSION_get w url) as [resp|e]; simpl; [|reflexivity].
  destruct ((400 <=? status_code resp)%Z && (status_code resp <? 600)%Z);
    reflexivity.
Qed.

(** Whenever the GET raises nothing but request exceptions, [fetch_page]
    returns, on a hit as on a miss. *)
Lemma fetch_page_returns w url st :
  (forall e, SESSION_get w url = Raise e -> is_RequestException e = true) ->
  exists v st', fetch_page w url st = (Ret v, st').
Proof.
  intros Hnet. unfold fetch_page, cached, lift.
  destruct (cache_getitem w st url) as [[v|] st1]; [eauto|].
  pose proof (fetch_page_body_cases w url) as Hb.
  destruct (SESSION_get w url) as [resp|e].
  - rewrite Hb. destruct (_ && _)%bool; eauto.
  - rewrite Hb, (Hnet e eq_refl). eauto.
Qed.

(** C5 (as amended): on a cache miss, [fetch_page] returns absent when the
    GET ends in a request exception (network error, timeout) or in a 4xx or
    5xx status, and the raw bytes of the response for any other status; it
    raises nothing. *)
Theorem fetch_page_miss (w : World) (url : str) (st st1 : fetch_page_cache w) :
  cache_getitem w st url = (None, st1) ->
  (forall e, SESSION_get w url = Raise e -> is_RequestException e = true) ->
  exists v,
    fetch_page w url st = (Ret v, cache_setitem w st1 url v)
    /\ match SESSION_get w url with
       | Raise _ => v = VNone
       | Ret resp =>
           if ((400 <=? status_code resp) && (status_code resp <? 600))%Z
           then v = VNone
           else v = VBytes (content resp)
       end.
Proof.
  intros Hmiss Hnet. unfold fetch_page. rewrite (cached_miss _ _ _ _ _ Hmiss).
  unfold lift. pose proof (fetch_page_body_cases w url) as Hb.
  destruct (SESSION_get w url) as [resp|e].
  - rewrite Hb. destruct (_ && _)%bool; eauto.
  - rewrite Hb, (Hnet e eq_refl). eauto.
Qed.

Lemma fetch_page_miss_witness :
  exists v,
    fetch_page (simple_world net_timeout (fun _ => Raise OtherException))
      (py "https://einthusan.tv/x") []
    = (Ret v, [(py "https://einthusan.tv/x", v)])
    /\ v = VNone.
Proof.
  apply (fetch_page_miss
           (simple_world net_timeout (fun _ => Raise OtherException))
           (py "https://einthusan.tv/x") [] []).
  - reflexivity.
  - intros e H. inversion H. reflexivity.
Defined.

(** C5 as stated fails: a response with status 304 is not a 2xx response,
    and its bytes are returned. *)
Lemma fetch_page_non_2xx_returned :
  let w := simple_world (net_status 304) (fun _ => Raise OtherException) in
  exists resp,
    SESSION_get w (py "https://einthusan.tv/x") = Ret resp
    /\ ~ (200 <= status_code resp < 300)%Z
    /\ fst (fetch_page w (py "https://einthusan.tv/x") [])
       = Ret (VBytes (content resp))
    /\ fst (fetch_page w (py "https://einthusan.tv/x") []) <> Ret VNone.
Proof.
  exists (Response 304 page_bytes). repeat split.
  - simpl. lia.
  - discriminate.
Qed.

(** ** Substrings *)

Lemma ascii_eqb_eq a b : ascii_eqb a b = true <-> a = b.
Proof. apply Ascii.eqb_eq. Qed.

Lemma strip_prefix_spec p :
  forall s r, strip_prefix p s = Some r <-> s = p ++ r.
Proof.
  induction p as [|x p IH]; intros s r; simpl.
  - split; congruence.
  - destruct s as [|y s]; [split; discriminate|].
    destruct (ascii_eqb x y) eqn:E.
    + apply ascii_eqb_eq in E. rewrite IH. split; congruence.
    + split; [discriminate|]. intros H.
      assert (Exy : x = y) by congruence.
      apply ascii_eqb_eq in Exy. congruence.
Qed.

(** [split_first] cuts at the first occurrence of the separator. *)
Lemma split_first_spec sep :
  forall s pre post,
    split_first sep s = Some (pre, post) ->
    s = pre ++ sep ++ post
    /\ forall pre' post', s = pre' ++ sep ++ post' ->
                          length pre <= length pre'.
Proof.
  induction s as [|c t IH]; intros pre post H; simpl in H.
  - destruct (strip_prefix sep []) as [r|] eqn:E; [|discriminate].
    inversion H; subst. apply strip_prefix_spec in E.
    split; [exact E | intros; simpl; lia].
  - destruct (strip_prefix sep (c :: t)) as [r|] eqn:E.
    + inversion H; subst. apply strip_prefix_spec in E.
      split; [exact E | intros; simpl; lia].
    + destruct (split_first sep t) as [[pre0 post0]|] eqn:E0; [|discriminate].
      inversion H; subst. destruct (IH _ _ eq_refl) as [Ht Hmin].
      split; [simpl; now f_equal|].
      intros pre' post' Hs. destruct pre' as [|c' pre'].
      * simpl in Hs. apply strip_prefix_spec in Hs. congruence.
      * simpl in Hs. inversion Hs; subst. simpl.
        apply le_n_S. eapply Hmin. eassumption.
Qed.

Lemma contains_split_first sep s :
  contains sep s = true ->
  exists pre post, split_first sep s = Some (pre, post).
Proof.
  unfold contains. destruct (split_first sep s) as [[pre post]|];
    [eauto | discriminate].
Qed.

(** ** The Video URL Extractor *)

Lemma extract_video_url_unfold w url st :
  extract_video_url w url st
  = match fetch_page w url st with
    | (Ret content, st1) =>
        if falsy content then (Ret None, st1)
        else (try_except (video_url_of w content) is_Exception
                (fun _ => Ret None), st1)
    | (Raise e, st1) => (Raise e, st1)
    end.
Proof.
  unfold extract_video_url, bind, ret, lift.
  destruct (fetch_page w url st) as [[content|e] st1]; [|reflexivity].
  destruct (falsy content); reflexivity.
Qed.

(** C4 (as amended): once [fetch_page] has returned, the Video URL
    Extractor returns the CDN origin followed by the manifest link from its
    first "etv" onward when the player element has such a link, and absent
    in every other case (nothing fetched, a parser fault, no player, no
    attribute, no "etv"), and it raises nothing. *)
Theorem extract_video_url_cases (w : World) (url : str) (st st1 : fetch_page_cache w)
  (content : value) :
  fetch_page w url st = (Ret content, st1) ->
  (exists r, extract_video_url w url st = (Ret r, st1))
  /\ (forall soup player link,
         falsy content = false ->
         BeautifulSoup w content = Ret soup ->
         Dom.find (Dom.has_attr "id" "UIVideoPlayer") soup = Some player ->
         Dom.get player "data-mp4-link" = Some link ->
         contains etv link = true ->
         exists pre tail,
           link = pre ++ etv ++ tail
           /\ (forall pre' tail', link = pre' ++ etv ++ tail' ->
                                  length pre <= length pre')
           /\ extract_video_url w url st
              = (Ret (Some (cdn_origin ++ etv ++ tail)), st1))
  /\ (falsy content = true
      \/ (exists e, BeautifulSoup w content = Raise e)
      \/ (exists soup,
             BeautifulSoup w content = Ret soup
             /\ (Dom.find (Dom.has_attr "id" "UIVideoPlayer") soup = None
                 \/ exists player,
                     Dom.find (Dom.has_attr "id" "UIVideoPlayer") soup
                     = Some player
                     /\ (Dom.get player "data-mp4-link" = None
                         \/ exists link,
                             Dom.get player "data-mp4-link" = Some link
                             /\ contains etv link = false))) ->
      extract_video_url w url st = (Ret None, st1))
  /\ fst (extract_video_url
            (simple_world (net_status 200)
               (fun _ => Ret (player_page ".../etv/abc123.mp4")))
            (py "https://einthusan.tv/movie/watch/53BA/") [])
     = Ret (Some (py "https://cdn1.einthusan.io/etv/abc123.mp4"))
  /\ fst (extract_video_url
            (simple_world (net_status 200)
               (fun _ => Ret (player_page ".../mp4/abc123.mp4")))
            (py "https://einthusan.tv/movie/watch/53BA/") [])
     = Ret None.
Proof.
  intros Hf. rewrite extract_video_url_unfold, Hf.
  split; [|split; [|split; [|split; vm_compute; reflexivity]]].
  - unfold video_url_of, try_except, is_Exception.
    repeat match goal with
           | |- context [if ?b then _ else _] => destruct b
           | |- context [match ?x with _ => _ end] => destruct x
           end; eauto.
  - intros soup player link Hc Hs Hp Hl He. rewrite Hc.
    unfold video_url_of. rewrite Hs, Hp, Hl, He.
    destruct (contains_split_first _ _ He) as [pre [tail Hsf]].
    destruct (split_first_spec _ _ _ _ Hsf) as [Hlink Hmin].
    exists pre, tail. split; [exact Hlink|]. split; [exact Hmin|].
    rewrite Hsf. destruct link as [|c link].
    + vm_compute in He. discriminate.
    + assert (Ecdn : cdn_etv = cdn_origin ++ etv) by reflexivity.
      cbn [Dom.truthy andb try_except]. now rewrite Ecdn, <- app_assoc.
  - intros [Hc | [[e He] | [soup [Hs Hrest]]]].
    + now rewrite Hc.
    + destruct (falsy content); [reflexivity|].
      unfold video_url_of. now rewrite He.
    + destruct (falsy content); [reflexivity|].
      unfold video_url_of. rewrite Hs.
      destruct Hrest as [Hn | [player [Hp [Hl | [link [Hl He]]]]]].
      * now rewrite Hn.
      * now rewrite Hp, Hl.
      * rewrite Hp, Hl, He. now rewrite andb_false_r.
Qed.

Lemma extract_video_url_cases_witness :
  let w := simple_world (net_status 200)
             (fun _ => Ret (player_page ".../etv/abc123.mp4")) in
  let url := py "https://einthusan.tv/movie/watch/53BA/" in
  exists pre tail,
    py ".../etv/abc123.mp4" = pre ++ etv ++ tail
    /\ (forall pre' tail', py ".../etv/abc123.mp4" = pre' ++ etv ++ tail' ->
                           length pre <= length pre')
    /\ extract_video_url w url []
       = (Ret (Some (cdn_origin ++ etv ++ tail)), [(url, VBytes page_bytes)]).
Proof.
  intros w url.
  refine (proj1 (proj2 (extract_video_url_cases w url []
                          [(url, VBytes page_bytes)] (VBytes page_bytes) _))
            (player_page ".../etv/abc123.mp4")
            (Tag (py "div")
               [(py "id", py "UIVideoPlayer");
                (py "data-mp4-link", py ".../etv/abc123.mp4")] [])
            (py ".../etv/abc123.mp4") _ _ _ _ _); reflexivity.
Defined.

(** C4 as stated fails: [fetch_page] is called before the [try] block and
    catches request exceptions only, so an exception of the GET that is not
    a request exception reaches the caller of the extractor. *)
Lemma extract_video_url_raises :
  let w := simple_world net_other_error
             (fun _ => Ret (player_page ".../etv/abc123.mp4")) in
  is_RequestException OtherException = false
  /\ extract_video_url w (py "http://a..b/") []
     = (Raise OtherException, [])
  /\ ~ (exists r st', extract_video_url w (py "http://a..b/") []
                     = (Ret r, st')).
Proof.
  intros w. split; [reflexivity|]. split; [reflexivity|].
  intros [r [st' H]]. discriminate H.
Qed.

(** ** The Page Title Extractor and the Listing Parser *)

Lemma cleaned_if_any_truthy raw t :
  cleaned_if_any raw = Some t -> t <> [].
Proof.
  unfold cleaned_if_any. destruct (Dom.truthy raw); [|discriminate].
  destruct (clean_title raw) as [[|c r]|]; simpl; try discriminate.
  intros H. inversion H. discriminate.
Qed.

Lemma try_extract_title_nonempty soup t :
  try_extract_title_from_dom soup = Some t -> t <> [].
Proof.
  unfold try_extract_title_from_dom.
  destruct (cleaned_if_any
              match Dom.find _ soup with
              | Some m => Dom.get m "content"
              | None => None
              end) as [t1|] eqn:E1.
  { intros H. inversion H; subst. eapply cleaned_if_any_truthy, E1. }
  destruct (cleaned_if_any (option_map Dom.text (Dom.find (Dom.has_name "title") soup)))
    as [t2|] eqn:E2.
  { intros H. inversion H; subst. eapply cleaned_if_any_truthy, E2. }
  apply cleaned_if_any_truthy.
Qed.

Lemma first_title_step c cs :
  first_title (c :: cs)
  = if qualifies (clean_title (Some c)) then clean_title (Some c)
    else first_title cs.
Proof.
  cbn [first_title]. unfold qualifies.
  destruct (clean_title (Some c)) as [t|]; [|reflexivity].
  destruct (negb (is_empty t) && (2 <? length t) && negb (str_isdigit t));
    reflexivity.
Qed.

Lemma first_title_none cs :
  first_title cs = None
  <-> forall c, In c cs -> qualifies (clean_title (Some c)) = false.
Proof.
  induction cs as [|c cs IH].
  - simpl. split; [intros _ ? [] | reflexivity].
  - rewrite first_title_step.
    destruct (qualifies (clean_title (Some c))) eqn:Q.
    + split.
      * intros H. rewrite H in Q. discriminate.
      * intros H. rewrite (H c) in Q; [discriminate | now left].
    + rewrite IH. split.
      * intros H x [<- | Hx]; auto.
      * intros H x Hx. apply H. now right.
Qed.

Lemma first_title_qualifies cs t :
  first_title cs = Some t -> qualifies (Some t) = true.
Proof.
  induction cs as [|c cs IH]; [discriminate|].
  rewrite first_title_step.
  destruct (qualifies (clean_title (Some c))) eqn:Q; [|exact IH].
  intros H. now rewrite H in Q.
Qed.

Lemma qualifies_long t : qualifies (Some t) = true -> 2 < length t.
Proof.
  simpl. intros H. apply andb_true_iff in H as [H _].
  apply andb_true_iff in H as [_ H]. now apply Nat.ltb_lt.
Qed.

Lemma get_title_from_movie_page_unfold w url st :
  get_title_from_movie_page w url st
  = match fetch_page w url st with
    | (Ret content, st') =>
        if falsy content then (Ret None, st')
        else match BeautifulSoup w content with
             | Ret soup => (Ret (try_extract_title_from_dom soup), st')
             | Raise e => (Raise e, st')
             end
    | (Raise e, st') => (Raise e, st')
    end.
Proof.
  unfold get_title_from_movie_page, bind, ret, lift.
  destruct (fetch_page w url st) as [[content|e] st']; [|reflexivity].
  destruct (falsy content); [reflexivity|].
  destruct (BeautifulSoup w content); reflexivity.
Qed.

Lemma get_title_nonempty w url st t st' :
  get_title_from_movie_page w url st = (Ret (Some t), st') -> t <> [].
Proof.
  rewrite get_title_from_movie_page_unfold.
  destruct (fetch_page w url st) as [[content|e] st1]; [|discriminate].
  destruct (falsy content); [discriminate|].
  destruct (BeautifulSoup w content) as [soup|e]; [|discriminate].
  intros H. inversion H. eapply try_extract_title_nonempty. eassumption.
Qed.

(** Every record of the Listing Parser has a title that is not empty. *)
Lemma process_movie_block_title w div st m st' :
  process_movie_block w div st = (Ret (Some m), st') -> title m <> [].
Proof.
  unfold process_movie_block.
  destruct (Dom.find (Dom.has_name "a") div) as [a|]; [|discriminate].
  destruct (Dom.find (Dom.has_name "img") div) as [img|]; [|discriminate].
  unfold bind, ret.
  destruct (needs_fallback (first_title _)) eqn:Hfb.
  - destruct (get_title_from_movie_page w _ st) as [[t|e] st1] eqn:Ht;
      [|discriminate].
    intros H. inversion H; subst. simpl.
    destruct t as [[|c r]|]; simpl; try discriminate.
  - intros H. inversion H; subst. simpl.
    destruct (first_title _) as [t|] eqn:Et; [|discriminate].
    apply first_title_qualifies, qualifies_long in Et.
    destruct t; [simpl in Et; lia | discriminate].
Qed.

(** C8: for a block with a link and an image, the fallback is taken exactly
    when no cleaned candidate qualifies (longer than 2 and not numeric) or
    the accepted title is shorter than 3 or flagged by the Code Detector;
    the parser then fetches the detail page and runs the Page Title
    Extractor, and takes "Untitled Movie" when that yields nothing; the
    title of every record produced is not empty. *)
Theorem listing_title_fallback (w : World) (div a img : node) (st : fetch_page_cache w) :
  Dom.find (Dom.has_name "a") div = Some a ->
  Dom.find (Dom.has_name "img") div = Some img ->
  let url :=
    site_origin ++ match Dom.get a "href" with Some h => h | None => [] end in
  let cs :=
    candidates
      (Dom.find (fun n => Dom.has_name "div" n && Dom.has_class "title" n) div)
      img in
  (needs_fallback (first_title cs) = true
   <-> ((forall c, In c cs -> qualifies (clean_title (Some c)) = false)
        \/ exists t, first_title cs = Some t
                     /\ (length t < 3 \/ looks_like_code (Some t) = true)))
  /\ (needs_fallback (first_title cs) = true ->
      process_movie_block w div st
      = match get_title_from_movie_page w url st with
        | (Ret (Some (c :: r)), st') =>
            (Ret (Some (Movie (c :: r) (resolve_img_url img) url)), st')
        | (Ret _, st') =>
            (Ret (Some (Movie untitled (resolve_img_url img) url)), st')
        | (Raise e, st') => (Raise e, st')
        end)
  /\ get_title_from_movie_page w url st
     = match fetch_page w url st with
       | (Ret content, st') =>
           if falsy content then (Ret None, st')
           else match BeautifulSoup w content with
                | Ret soup => (Ret (try_extract_title_from_dom soup), st')
                | Raise e => (Raise e, st')
                end
       | (Raise e, st') => (Raise e, st')
       end
  /\ (forall m st',
         process_movie_block w div st = (Ret (Some m), st') -> title m <> [])
  /\ fst (process_movie_block (simple_world net_timeout (fun _ => Ret (Text [])))
            (listing_block "53BA") [])
     = Ret (Some (Movie (py "Untitled Movie") (py "https://cdn/x.jpg")
                    (py "https://einthusan.tv/movie/watch/53BA/"))).
Proof.
  intros Ha Hi url cs. split; [|split; [|split; [|split]]].
  - unfold needs_fallback. destruct (first_title cs) as [t|] eqn:Et.
    + rewrite !orb_true_iff. split.
      * intros [[He | Hl] | Hc]; right; exists t; split; auto.
        -- left. apply is_empty_nil in He. subst t. simpl. lia.
        -- left. now apply Nat.ltb_lt.
      * intros [Hn | [t' [E [Hl | Hc]]]].
        -- apply first_title_none in Hn. congruence.
        -- inversion E; subst. left. right. now apply Nat.ltb_lt.
        -- inversion E; subst. now right.
    + split; [|reflexivity]. intros _. left. now apply first_title_none.
  - intros Hfb. unfold process_movie_block. rewrite Ha, Hi.
    fold url. fold cs. rewrite Hfb. unfold bind, ret.
    destruct (get_title_from_movie_page w url st) as [[[[|c r]|]|e] st'];
      reflexivity.
  - apply get_title_from_movie_page_unfold.
  - intros m st'. apply process_movie_block_title.
  - vm_compute. reflexivity.
Qed.

Lemma listing_title_fallback_witness :
  let w := simple_world (net_status 200)
             (fun _ => Ret (detail_page "Vikram (2022) Tamil in HD - Einthusan")) in
  let url := py "https://einthusan.tv/movie/watch/53BA/" in
  process_movie_block w (listing_block "53BA") []
  = (Ret (Some (Movie (py "Vikram") (py "https://cdn/x.jpg") url)),
     [(url, VBytes page_bytes)]).
Proof.
  intros w url.
  rewrite (proj1 (proj2 (listing_title_fallback w (listing_block "53BA")
             (Tag (py "a") [(py "href", py "/movie/watch/53BA/")]
                [Tag (py "img")
                   [(py "src", py "//cdn/x.jpg"); (py "alt", py "53BA")] []])
             (Tag (py "img")
                [(py "src", py "//cdn/x.jpg"); (py "alt", py "53BA")] [])
             [] eq_refl eq_refl)) eq_refl).
  vm_compute. reflexivity.
Defined.

(** ** Blocks without a link or an image *)

Lemma process_movie_block_skips w div st :
  has_link_and_image div = false ->
  process_movie_block w div st = (Ret None, st).
Proof.
  unfold has_link_and_image, process_movie_block.
  destruct (Dom.find (Dom.has_name "a") div);
    destruct (Dom.find (Dom.has_name "img") div); simpl;
    try discriminate; reflexivity.
Qed.

Lemma process_movie_block_yields w div st r st' :
  has_link_and_image div = true ->
  process_movie_block w div st = (Ret r, st') ->
  exists m, r = Some m.
Proof.
  unfold has_link_and_image, process_movie_block.
  destruct (Dom.find (Dom.has_name "a") div) as [a|]; [|discriminate].
  destruct (Dom.find (Dom.has_name "img") div) as [img|]; [|discriminate].
  intros _. unfold bind, ret.
  destruct (needs_fallback _).
  - destruct (get_title_from_movie_page w _ st) as [[t|e] st1];
      [|discriminate].
    intros H. inversion H. eauto.
  - intros H. inversion H. eauto.
Qed.

Lemma collect_movies_filter w blocks :
  forall acc st,
    collect_movies w blocks acc st
    = collect_movies w (filter has_link_and_image blocks) acc st.
Proof.
  induction blocks as [|b bs IH]; intros acc st; [reflexivity|].
  simpl. destruct (has_link_and_image b) eqn:Hb.
  - simpl. unfold bind.
    destruct (process_movie_block w b st) as [[r|e] st1]; [|reflexivity].
    apply IH.
  - unfold bind. rewrite (process_movie_block_skips w b st Hb). apply IH.
Qed.

Lemma collect_movies_length w blocks :
  forall acc st ms st',
    collect_movies w blocks acc st = (Ret ms, st') ->
    length ms = length acc + length (filter has_link_and_image blocks).
Proof.
  induction blocks as [|b bs IH]; intros acc st ms st' H; simpl in H.
  - inversion H. simpl. lia.
  - unfold bind in H.
    destruct (process_movie_block w b st) as [[r|e] st1] eqn:Hp;
      [|discriminate].
    apply IH in H. simpl. destruct (has_link_and_image b) eqn:Hb.
    + destruct (process_movie_block_yields _ _ _ _ _ Hb Hp) as [m ->].
      rewrite length_app in H. simpl in *. lia.
    + rewrite (process_movie_block_skips w b st Hb) in Hp.
      inversion Hp; subst. lia.
Qed.

(** C9: a block without a link or without an image yields no record and
    raises nothing; the parse goes on as if the block were not there, and
    every other block yields a record. *)
Theorem incomplete_blocks_skipped :
  (forall w div st,
      has_link_and_image div = false ->
      process_movie_block w div st = (Ret None, st))
  /\ (forall w blocks acc st,
         collect_movies w blocks acc st
         = collect_movies w (filter has_link_and_image blocks) acc st)
  /\ (forall w div st r st',
         has_link_and_image div = true ->
         process_movie_block w div st = (Ret r, st') ->
         exists m, r = Some m)
  /\ (forall w blocks st ms st',
         collect_movies w blocks [] st = (Ret ms, st') ->
         length ms = length (filter has_link_and_image blocks))
  /\ has_link_and_image block_without_image = false.
Proof.
  split; [|split; [|split; [|split]]].
  - apply process_movie_block_skips.
  - apply collect_movies_filter.
  - apply process_movie_block_yields.
  - intros w blocks st ms st' H.
    now apply collect_movies_length in H.
  - reflexivity.
Qed.

(** ** Empty results of the Title Normalizer *)

(** C10: the Title Normalizer returns absent only for an absent or empty
    input; an input made of noise only, such as "(2019)" or "Free Movies
    Online", gives the empty string, and both the Page Title Extractor and
    the candidate selection of the Listing Parser pass over that empty
    string. *)
Theorem clean_title_empty_is_rejected :
  (forall t, clean_title t = None <-> t = None \/ t = Some [])
  /\ clean_title (Some (py "(2019)")) = Some []
  /\ clean_title (Some (py "Free Movies Online")) = Some []
  /\ (forall raw, clean_title raw = Some [] -> cleaned_if_any raw = None)
  /\ (forall soup, try_extract_title_from_dom soup <> Some [])
  /\ (forall c cs,
         clean_title (Some c) = Some [] ->
         first_title (c :: cs) = first_title cs)
  /\ (forall cs, first_title cs <> Some []).
Proof.
  repeat split.
  - destruct t as [[|c r]|]; simpl; auto; discriminate.
  - intros [-> | ->]; reflexivity.
  - intros raw H. unfold cleaned_if_any. rewrite H.
    destruct (Dom.truthy raw); reflexivity.
  - intros soup H. now apply try_extract_title_nonempty in H.
  - intros c cs H. rewrite first_title_step, H. reflexivity.
  - intros cs H. apply first_title_qualifies in H. discriminate.
Qed.

(** ** Counting characters *)

Lemma indices_from_length c s :
  forall j0 j1,
    length (Difflib.indices_from c s j0) = length (Difflib.indices_from c s j1).
Proof.
  induction s as [|x t IH]; intros j0 j1; simpl; [reflexivity|].
  destruct (ascii_eqb c x); simpl; auto.
Qed.

Lemma cnt_nil c : cnt c [] = 0.
Proof. reflexivity. Qed.

Lemma cnt_cons c x s :
  cnt c (x :: s) = (if ascii_eqb c x then 1 else 0) + cnt c s.
Proof.
  unfold cnt. simpl. destruct (ascii_eqb c x); simpl;
    now rewrite (indices_from_length c s 1 0).
Qed.

Lemma cnt_app c s t : cnt c (s ++ t) = cnt c s + cnt c t.
Proof.
  induction s as [|x s IH]; [reflexivity|].
  simpl app. rewrite !cnt_cons, IH. lia.
Qed.

Lemma sum_over_add l f g :
  sum_over l (fun c => f c + g c) = sum_over l f + sum_over l g.
Proof. induction l as [|x l IH]; simpl; [reflexivity | rewrite IH; lia]. Qed.

Lemma sum_over_le l f g :
  (forall c, f c <= g c) -> sum_over l f <= sum_over l g.
Proof.
  intros H. induction l as [|x l IH]; simpl; [lia|].
  specialize (H x). lia.
Qed.

Lemma sum_over_ext l f g :
  (forall c, f c = g c) -> sum_over l f = sum_over l g.
Proof.
  intros H. induction l as [|x l IH]; simpl; [reflexivity|].
  now rewrite H, IH.
Qed.

Lemma sum_over_zero l : sum_over l (fun _ => 0) = 0.
Proof. induction l as [|x l IH]; simpl; auto. Qed.

Lemma sum_chars_add f g :
  sum_chars (fun c => f c + g c) = sum_chars f + sum_chars g.
Proof. apply sum_over_add. Qed.

Lemma sum_chars_le f g : (forall c, f c <= g c) -> sum_chars f <= sum_chars g.
Proof. apply sum_over_le. Qed.

Lemma sum_chars_ext f g : (forall c, f c = g c) -> sum_chars f = sum_chars g.
Proof. apply sum_over_ext. Qed.

(** Each character is met exactly once in the sum. *)
Lemma sum_chars_point x :
  sum_chars (fun c => if ascii_eqb c x then 1 else 0) = 1.
Proof. destruct x as [[] [] [] [] [] [] [] []]; vm_compute; reflexivity. Qed.

Lemma sum_chars_point_scaled x d :
  sum_chars (fun c => if ascii_eqb c x then d else 0) = d.
Proof.
  destruct d as [|d'].
  - rewrite (sum_chars_ext _ (fun _ => 0)).
    + apply sum_over_zero.
    + intros c. destruct (ascii_eqb c x); reflexivity.
  - induction d' as [|d' IH].
    + apply sum_chars_point.
    + rewrite (sum_chars_ext _
                 (fun c => (if ascii_eqb c x then 1 else 0)
                           + (if ascii_eqb c x then S d' else 0))).
      * rewrite sum_chars_add, sum_chars_point, IH. reflexivity.
      * intros c. destruct (ascii_eqb c x); reflexivity.
Qed.

Lemma sum_chars_cnt s : sum_chars (fun c => cnt c s) = length s.
Proof.
  induction s as [|x s IH].
  - apply sum_over_zero.
  - rewrite (sum_chars_ext _
               (fun c => (if ascii_eqb c x then 1 else 0) + cnt c s)).
    + rewrite sum_chars_add, sum_chars_point, IH. reflexivity.
    + intros c. apply cnt_cons.
Qed.

Lemma common_le_left s t : common s t <= length s.
Proof.
  rewrite <- (sum_chars_cnt s). apply sum_chars_le. intros c. lia.
Qed.

Lemma common_le_right s t : common s t <= length t.
Proof.
  rewrite <- (sum_chars_cnt t). apply sum_chars_le. intros c. lia.
Qed.

Lemma common_same m : common m m = length m.
Proof.
  unfold common. rewrite <- (sum_chars_cnt m).
  apply sum_chars_ext. intros c. lia.
Qed.

(** A common middle part counts in full, next to what the sides have in
    common. *)
Lemma common_split s1 m s2 t1 t2 :
  common s1 t1 + length m + common s2 t2
  <= common (s1 ++ m ++ s2) (t1 ++ m ++ t2).
Proof.
  rewrite <- (common_same m). unfold common.
  rewrite <- !sum_chars_add. apply sum_chars_le. intros c.
  rewrite !cnt_app. lia.
Qed.

(** ** [quick_ratio] counts the common characters *)

Lemma ascii_eqb_sym a b : ascii_eqb a b = ascii_eqb b a.
Proof. apply Ascii.eqb_sym. Qed.

Lemma ascii_eqb_refl a : ascii_eqb a a = true.
Proof. apply Ascii.eqb_refl. Qed.

Lemma ascii_eqb_true a b : ascii_eqb a b = true -> a = b.
Proof. apply Ascii.eqb_eq. Qed.

Lemma quick_loop_spec b s :
  forall p avail m,
    (forall elt,
        Difflib.avail_get avail elt
        = if cnt elt p =? 0 then None
          else Some (Z.of_nat (cnt elt b) - Z.of_nat (cnt elt p))%Z) ->
    m = common p b ->
    Difflib.quick_loop b s avail m = common (p ++ s) b.
Proof.
  induction s as [|elt t IH]; intros p avail m Hav Hm; simpl.
  - now rewrite app_nil_r.
  - replace (p ++ elt :: t) with ((p ++ [elt]) ++ t)
      by now rewrite <- app_assoc.
    set (numb := match Difflib.avail_get avail elt with
                 | Some n => n
                 | None => Difflib.fullbcount b elt
                 end).
    assert (Hn : numb = (Z.of_nat (cnt elt b) - Z.of_nat (cnt elt p))%Z).
    { unfold numb. rewrite Hav. destruct (cnt elt p =? 0) eqn:E.
      - apply Nat.eqb_eq in E. rewrite E. unfold Difflib.fullbcount, cnt. lia.
      - reflexivity. }
    apply IH.
    + intros e. simpl. rewrite cnt_app, cnt_cons, cnt_nil.
      destruct (ascii_eqb elt e) eqn:E.
      * apply ascii_eqb_true in E. subst e. rewrite ascii_eqb_refl.
        destruct (cnt elt p + (1 + 0) =? 0) eqn:E0.
        { apply Nat.eqb_eq in E0. lia. }
        f_equal. lia.
      * rewrite ascii_eqb_sym, E, Hav. now rewrite !Nat.add_0_r.
    + subst m. unfold common.
      set (d := if cnt elt p <? cnt elt b then 1 else 0).
      assert (Hd : (if (0 <? numb)%Z then common p b + 1 else common p b)
                   = common p b + d).
      { unfold d. destruct (0 <? numb)%Z eqn:E1;
          destruct (cnt elt p <? cnt elt b) eqn:E2; try lia.
        - apply Z.ltb_lt in E1. apply Nat.ltb_ge in E2. lia.
        - apply Z.ltb_ge in E1. apply Nat.ltb_lt in E2. lia. }
      unfold common in Hd. rewrite Hd.
      rewrite <- (sum_chars_point_scaled elt d) at 1.
      rewrite <- sum_chars_add. apply sum_chars_ext. intros c.
      rewrite cnt_app, cnt_cons, cnt_nil. unfold d.
      destruct (ascii_eqb c elt) eqn:E.
      * apply ascii_eqb_true in E. subst c.
        destruct (cnt elt p <? cnt elt b) eqn:E2.
        -- apply Nat.ltb_lt in E2. lia.
        -- apply Nat.ltb_ge in E2. lia.
      * lia.
Qed.

Lemma quick_loop_common a b : Difflib.quick_loop b a [] 0 = common a b.
Proof.
  apply (quick_loop_spec b a [] [] 0).
  - intros elt. reflexivity.
  - unfold common. symmetry.
    rewrite (sum_chars_ext _ (fun _ => 0)); [apply sum_over_zero|].
    intros c. reflexivity.
Qed.

(** ** [find_longest_match] returns a matching block of its window *)

Lemma indices_from_spec x b :
  forall j0 j,
    In j (Difflib.indices_from x b j0) ->
    j0 <= j /\ nth (j - j0) b zero = x.
Proof.
  induction b as [|y t IH]; intros j0 j H; simpl in H; [contradiction|].
  assert (Hrec : In j (Difflib.indices_from x t (S j0)) ->
                 j0 <= j /\ nth (j - j0) (y :: t) zero = x).
  { intros H'. apply IH in H' as [Hle Hn]. split; [lia|].
    replace (j - j0) with (S (j - S j0)) by lia. exact Hn. }
  destruct (ascii_eqb x y) eqn:E; [|auto].
  destruct H as [<- | H]; [|auto].
  split; [lia|]. rewrite Nat.sub_diag. simpl.
  symmetry. now apply Ascii.eqb_eq.
Qed.

Lemma b2j_spec b x j : In j (Difflib.b2j b x) -> Difflib.b_at b j = x.
Proof.
  unfold Difflib.b2j, Difflib.b_at.
  destruct (Difflib.popular b x); [contradiction|].
  intros H. apply indices_from_spec in H as [_ H].
  now rewrite Nat.sub_0_r in H.
Qed.

Lemma block_ok_widen a b alo ahi ahi' blo bhi m :
  ahi <= ahi' -> block_ok a b alo ahi blo bhi m ->
  block_ok a b alo ahi' blo bhi m.
Proof.
  destruct m as [[i j] k]. unfold block_ok. intros H [? [? [? [? ?]]]].
  repeat split; auto; lia.
Qed.

Lemma scan_row_ok a b alo blo bhi m dprev js :
  row_ok a b alo blo bhi m dprev ->
  (forall j, In j js -> Difflib.b_at b j = Difflib.a_at a (alo + m)) ->
  forall newd best,
    row_ok a b alo blo bhi (S m) newd ->
    block_ok a b alo (alo + S m) blo bhi best ->
    let '(d', best') :=
      Difflib.scan_row dprev blo bhi (alo + m) js newd best in
    row_ok a b alo blo bhi (S m) d'
    /\ block_ok a b alo (alo + S m) blo bhi best'.
Proof.
  intros Hprev. induction js as [|j js IH]; intros Hjs newd best Hd Hb;
    simpl.
  - auto.
  - assert (Hjs' : forall j', In j' js ->
                              Difflib.b_at b j' = Difflib.a_at a (alo + m))
      by (intros; apply Hjs; now right).
    destruct (j <? blo) eqn:Elo; [now apply IH|].
    destruct (bhi <=? j) eqn:Ehi; [auto|].
    apply Nat.ltb_ge in Elo. apply Nat.leb_gt in Ehi.
    set (kp := match j with
               | O => 0
               | S j1 => Difflib.j2len_get dprev j1
               end).
    assert (Hkp : kp <= m /\ kp + blo <= j
                  /\ forall t, t < kp ->
                               Difflib.a_at a (alo + m - 1 - t)
                               = Difflib.b_at b (j - 1 - t)).
    { unfold kp. destruct j as [|j1].
      - repeat split; try lia; intros t Ht; lia.
      - destruct (Nat.eq_dec (Difflib.j2len_get dprev j1) 0) as [E0|E0].
        + rewrite E0. repeat split; try lia; intros t Ht; lia.
        + destruct (Hprev j1) as [H1 [H2 [H3 H4]]]; [lia|].
          repeat split; try lia. intros t Ht.
          replace (S j1 - 1 - t) with (j1 - t) by lia. now apply H4. }
    destruct Hkp as [Hk1 [Hk2 Hk3]].
    assert (Hmatch : forall t, t < kp + 1 ->
                               Difflib.a_at a (alo + S m - 1 - t)
                               = Difflib.b_at b (j - t)).
    { intros t Ht. destruct t as [|t'].
      - replace (alo + S m - 1 - 0) with (alo + m) by lia.
        rewrite Nat.sub_0_r. symmetry. apply Hjs. now left.
      - replace (alo + S m - 1 - S t') with (alo + m - 1 - t') by lia.
        replace (j - S t') with (j - 1 - t') by lia.
        apply Hk3. lia. }
    destruct best as [[bi bj] bk].
    apply IH; auto.
    + intros j'. simpl. destruct (j =? j') eqn:Ej.
      * apply Nat.eqb_eq in Ej. subst j'. intros _.
        repeat split; try lia. exact Hmatch.
      * apply Hd.
    + destruct (bk <? kp + 1); [|exact Hb].
      unfold block_ok. repeat split; try lia.
      intros t Ht.
      replace (alo + m + 1 - (kp + 1) + t)
        with (alo + S m - 1 - (kp - t)) by lia.
      replace (j + 1 - (kp + 1) + t) with (j - (kp - t)) by lia.
      apply Hmatch. lia.
Qed.

Lemma row_ok_nil a b alo blo bhi m : row_ok a b alo blo bhi m [].
Proof. intros j H. simpl in H. lia. Qed.

Lemma scan_rows_ok a b alo blo bhi n :
  forall m d best,
    row_ok a b alo blo bhi m d ->
    block_ok a b alo (alo + m) blo bhi best ->
    block_ok a b alo (alo + m + n) blo bhi
      (Difflib.scan_rows a b blo bhi (seq (alo + m) n) d best).
Proof.
  induction n as [|n IH]; intros m d best Hd Hb; simpl.
  - now rewrite Nat.add_0_r.
  - pose proof (scan_row_ok a b alo blo bhi m d
                  (Difflib.b2j b (Difflib.a_at a (alo + m))) Hd
                  (fun j H => b2j_spec b _ j H) [] best
                  (row_ok_nil a b alo blo bhi (S m))
                  (block_ok_widen a b alo (alo + m) (alo + S m) blo bhi best
                     ltac:(lia) Hb)) as H.
    destruct (Difflib.scan_row d blo bhi (alo + m) _ [] best) as [d' best'].
    destruct H as [Hd' Hb'].
    replace (alo + m + S n) with (alo + S m + n) by lia.
    replace (S (alo + m)) with (alo + S m) by lia.
    now apply IH.
Qed.

Lemma extend_left_ok a b junk alo ahi blo bhi :
  forall i j k,
    block_ok a b alo ahi blo bhi (i, j, k) ->
    block_ok a b alo ahi blo bhi (Difflib.extend_left a b junk alo blo i j k).
Proof.
  induction i as [|i1 IH]; intros j k H; cbn [Difflib.extend_left];
    [exact H|].
  destruct ((alo <? S i1) && (blo <? j)
            && Bool.eqb (Difflib.isbjunk (Difflib.b_at b (j - 1))) junk
            && ascii_eqb (Difflib.a_at a i1) (Difflib.b_at b (j - 1))) eqn:E;
    [|exact H].
  apply andb_true_iff in E as [E E4]. apply andb_true_iff in E as [E _].
  apply andb_true_iff in E as [E1 E2].
  apply Nat.ltb_lt in E1, E2. apply Ascii.eqb_eq in E4.
  destruct H as [H1 [H2 [H3 [H4 H5]]]].
  apply IH. unfold block_ok. repeat split; try lia.
  intros t Ht. destruct t as [|t'].
  - now rewrite !Nat.add_0_r.
  - replace (i1 + S t') with (S i1 + t') by lia.
    replace (j - 1 + S t') with (j + t') by lia.
    apply H5. lia.
Qed.

Lemma extend_right_ok a b junk alo ahi blo bhi n :
  forall i j k,
    block_ok a b alo ahi blo bhi (i, j, k) ->
    i + k + n <= ahi ->
    block_ok a b alo ahi blo bhi (Difflib.extend_right a b junk bhi n i j k).
Proof.
  induction n as [|n IH]; intros i j k H Hn; cbn [Difflib.extend_right];
    [exact H|].
  destruct ((j + k <? bhi)
            && Bool.eqb (Difflib.isbjunk (Difflib.b_at b (j + k))) junk
            && ascii_eqb (Difflib.a_at a (i + k)) (Difflib.b_at b (j + k)))
    eqn:E; [|exact H].
  apply andb_true_iff in E as [E E3]. apply andb_true_iff in E as [E1 _].
  apply Nat.ltb_lt in E1. apply Ascii.eqb_eq in E3.
  destruct H as [H1 [H2 [H3 [H4 H5]]]].
  apply IH; [|lia]. unfold block_ok. repeat split; try lia.
  intros t Ht. destruct (Nat.eq_dec t k) as [->|Hne]; [exact E3|].
  apply H5. lia.
Qed.

Lemma extend_ok a b junk alo ahi blo bhi m :
  block_ok a b alo ahi blo bhi m ->
  block_ok a b alo ahi blo bhi (Difflib.extend a b junk alo ahi blo bhi m).
Proof.
  destruct m as [[i j] k]. intros H. unfold Difflib.extend.
  pose proof (extend_left_ok a b junk alo ahi blo bhi i j k H) as H2.
  destruct (Difflib.extend_left a b junk alo blo i j k) as [[i2 j2] k2].
  apply extend_right_ok; [exact H2|].
  destruct H2 as [_ [H2 _]]. lia.
Qed.

(** The block returned lies in the window and matches element by
    element. *)
Lemma find_longest_match_ok a b alo ahi blo bhi :
  alo <= ahi -> blo <= bhi ->
  block_ok a b alo ahi blo bhi (Difflib.find_longest_match a b alo ahi blo bhi).
Proof.
  intros Ha Hb. unfold Difflib.find_longest_match.
  apply extend_ok, extend_ok.
  pose proof (scan_rows_ok a b alo blo bhi (ahi - alo) 0 [] (alo, blo, 0)
                (row_ok_nil a b alo blo bhi 0)) as H.
  rewrite !Nat.add_0_r in H.
  replace (alo + (ahi - alo)) with ahi in H by lia.
  apply H. unfold block_ok. repeat split; try lia; intros t Ht; lia.
Qed.

(** ** Slices *)

Lemma firstn_plus {A : Type} (n m : nat) (l : list A) :
  firstn (n + m) l = firstn n l ++ firstn m (skipn n l).
Proof.
  revert l. induction n as [|n IH]; intros l; simpl; [reflexivity|].
  destruct l as [|x l]; simpl.
  - now rewrite firstn_nil.
  - now rewrite IH.
Qed.

Lemma skipn_plus {A : Type} (n m : nat) (l : list A) :
  skipn (n + m) l = skipn m (skipn n l).
Proof.
  revert l. induction n as [|n IH]; intros l; simpl; [reflexivity|].
  destruct l as [|x l]; simpl; [now rewrite skipn_nil | apply IH].
Qed.

Lemma slice_app s lo mid hi :
  lo <= mid -> mid <= hi -> slice s lo hi = slice s lo mid ++ slice s mid hi.
Proof.
  intros H1 H2. unfold slice.
  replace (hi - lo) with ((mid - lo) + (hi - mid)) by lia.
  rewrite firstn_plus. f_equal. f_equal.
  rewrite <- skipn_plus. f_equal. lia.
Qed.

Lemma slice_length s lo hi :
  lo <= hi -> hi <= length s -> length (slice s lo hi) = hi - lo.
Proof.
  intros H1 H2. unfold slice. rewrite length_firstn, length_skipn. lia.
Qed.

Lemma nth_skipn_plus (s : str) lo t : nth t (skipn lo s) zero = nth (lo + t) s zero.
Proof.
  revert s. induction lo as [|lo IH]; intros s; simpl; [reflexivity|].
  destruct s as [|x s]; simpl; [now destruct t | apply IH].
Qed.

Lemma nth_firstn_lt (s : str) n t : t < n -> nth t (firstn n s) zero = nth t s zero.
Proof.
  revert s t. induction n as [|n IH]; intros s t H; [lia|].
  destruct s as [|x s]; simpl; [reflexivity|].
  destruct t as [|t]; simpl; [reflexivity|]. apply IH. lia.
Qed.

Lemma slice_nth s lo hi t :
  t < hi - lo -> nth t (slice s lo hi) zero = nth (lo + t) s zero.
Proof.
  intros H. unfold slice. now rewrite nth_firstn_lt, nth_skipn_plus.
Qed.

Lemma slice_all s : slice s 0 (length s) = s.
Proof. unfold slice. simpl. rewrite Nat.sub_0_r. apply firstn_all. Qed.

(** A matching block is the same slice of both sequences. *)
Lemma block_slices a b alo ahi blo bhi i j k :
  block_ok a b alo ahi blo bhi (i, j, k) ->
  ahi <= length a -> bhi <= length b ->
  slice a i (i + k) = slice b j (j + k).
Proof.
  intros [H1 [H2 [H3 [H4 H5]]]] Ha Hb.
  apply (nth_ext _ _ zero zero).
  - rewrite !slice_length; lia.
  - intros t Ht. rewrite slice_length in Ht by lia.
    rewrite !slice_nth by lia. apply H5. lia.
Qed.

(** ** The work list of [get_matching_blocks] *)

Lemma queue_weight_zero q : queue_weight q = 0 -> q = [].
Proof. destruct q as [|[[[alo ahi] blo] bhi] q]; simpl; [auto | lia]. Qed.

Lemma blocks_loop_nil a b fuel acc : Difflib.blocks_loop a b fuel [] acc = acc.
Proof. destruct fuel; reflexivity. Qed.

(** One step of the loop on a window: the block found, and the work list
    after it. *)
Lemma blocks_loop_step a b f alo ahi blo bhi q acc :
  Difflib.blocks_loop a b (S f) ((alo, ahi, blo, bhi) :: q) acc
  = let '(i, j, k) := Difflib.find_longest_match a b alo ahi blo bhi in
    if k =? 0 then Difflib.blocks_loop a b f q acc
    else
      Difflib.blocks_loop a b f
        ((if (i + k <? ahi) && (j + k <? bhi)
          then [(i + k, ahi, j + k, bhi)] else [])
         ++ (if (alo <? i) && (blo <? j) then [(alo, i, blo, j)] else [])
         ++ q)
        ((i, j, k) :: acc).
Proof.
  cbn [Difflib.blocks_loop].
  destruct (Difflib.find_longest_match a b alo ahi blo bhi) as [[i j] k].
  destruct (k =? 0); [reflexivity|].
  destruct ((alo <? i) && (blo <? j));
    destruct ((i + k <? ahi) && (j + k <? bhi)); reflexivity.
Qed.

Lemma next_queue_ok a b alo ahi blo bhi q i j k :
  Forall (range_ok (length a) (length b)) ((alo, ahi, blo, bhi) :: q) ->
  block_ok a b alo ahi blo bhi (i, j, k) ->
  k <> 0 ->
  let q2 := (if (i + k <? ahi) && (j + k <? bhi)
             then [(i + k, ahi, j + k, bhi)] else [])
            ++ (if (alo <? i) && (blo <? j) then [(alo, i, blo, j)] else [])
            ++ q in
  Forall (range_ok (length a) (length b)) q2
  /\ queue_weight q2 < queue_weight ((alo, ahi, blo, bhi) :: q)
  /\ k + queue_common a b q2
     <= queue_common a b ((alo, ahi, blo, bhi) :: q).
Proof.
  intros Hq Hb Hk. inversion Hq as [|? ? HR Hq']; subst.
    simpl in HR. destruct HR as [R1 [R2 [R3 R4]]].
  pose proof (block_slices _ _ _ _ _ _ _ _ _ Hb R2 R4) as Hm.
  destruct Hb as [B1 [B2 [B3 [B4 B5]]]].
  pose proof (common_split (slice a alo i) (slice a i (i + k))
                (slice a (i + k) ahi) (slice b blo j) (slice b (j + k) bhi))
    as Hc.
  rewrite Hm in Hc at 3.
  rewrite <- !slice_app in Hc by lia.
  rewrite slice_length in Hc by lia.
  replace (i + k - i) with k in Hc by lia.
  destruct ((i + k <? ahi) && (j + k <? bhi)) eqn:E2;
    destruct ((alo <? i) && (blo <? j)) eqn:E1; simpl;
    try (apply andb_true_iff in E1 as [E1a E1b];
         apply Nat.ltb_lt in E1a, E1b);
    try (apply andb_true_iff in E2 as [E2a E2b];
         apply Nat.ltb_lt in E2a, E2b);
    (split; [repeat constructor; auto; lia | split; lia]).
Qed.

(** The bound on the steps of the work list is never reached. *)
Lemma blocks_loop_fuel a b f1 :
  forall f2 q acc,
    Forall (range_ok (length a) (length b)) q ->
    queue_weight q <= f1 -> queue_weight q <= f2 ->
    Difflib.blocks_loop a b f1 q acc = Difflib.blocks_loop a b f2 q acc.
Proof.
  induction f1 as [|f1 IH]; intros f2 q acc Hq H1 H2.
  - rewrite (queue_weight_zero q) by lia. now rewrite !blocks_loop_nil.
  - destruct q as [|[[[alo ahi] blo] bhi] q]; [now rewrite !blocks_loop_nil|].
    destruct f2 as [|f2]; [simpl in H2; lia|].
    rewrite !blocks_loop_step.
    inversion Hq as [|? ? HR Hq']; subst.
    simpl in HR. destruct HR as [R1 [R2 [R3 R4]]].
    pose proof (find_longest_match_ok a b alo ahi blo bhi R1 R3) as Hb.
    destruct (Difflib.find_longest_match a b alo ahi blo bhi) as [[i j] k].
    destruct (k =? 0) eqn:Ek.
    + apply IH; auto; simpl in *; lia.
    + apply Nat.eqb_neq in Ek.
      destruct (next_queue_ok a b alo ahi blo bhi q i j k Hq Hb Ek)
        as [Hq2 [Hw _]].
      apply IH; auto; simpl in *; lia.
Qed.

(** The blocks found add up to no more than the characters the two
    sequences have in common. *)
Lemma blocks_loop_total a b fuel :
  forall q acc,
    Forall (range_ok (length a) (length b)) q ->
    total (Difflib.blocks_loop a b fuel q acc)
    <= total acc + queue_common a b q.
Proof.
  induction fuel as [|f IH]; intros q acc Hq; [simpl; lia|].
  destruct q as [|[[[alo ahi] blo] bhi] q]; [rewrite blocks_loop_nil; lia|].
  rewrite blocks_loop_step.
  inversion Hq as [|? ? HR Hq']; subst.
    simpl in HR. destruct HR as [R1 [R2 [R3 R4]]].
  pose proof (find_longest_match_ok a b alo ahi blo bhi R1 R3) as Hb.
  destruct (Difflib.find_longest_match a b alo ahi blo bhi) as [[i j] k].
  destruct (k =? 0) eqn:Ek.
  - specialize (IH q acc Hq'). simpl. lia.
  - apply Nat.eqb_neq in Ek.
    destruct (next_queue_ok a b alo ahi blo bhi q i j k Hq Hb Ek)
      as [Hq2 [_ Hc]].
    eapply Nat.le_trans; [apply IH, Hq2|].
    unfold total at 1. cbn [fold_right snd]. fold (total acc).
    rewrite <- Nat.add_assoc, (Nat.add_comm (total acc)), Nat.add_assoc.
    rewrite (Nat.add_comm (total acc)). apply Nat.add_le_mono_r. exact Hc.
Qed.

Lemma whole_range_ok (a b : str) :
  Forall (range_ok (length a) (length b)) [(0, length a, 0, length b)].
Proof. repeat constructor; lia. Qed.

Lemma matching_blocks_common a b :
  total (Difflib.get_matching_blocks a b) <= common a b.
Proof.
  unfold Difflib.get_matching_blocks.
  eapply Nat.le_trans; [apply blocks_loop_total, whole_range_ok|].
  simpl. rewrite !slice_all. lia.
Qed.

(** More steps than [get_matching_blocks] allows change nothing. *)
Lemma matching_blocks_fuel a b n :
  Difflib.blocks_loop a b (2 * length a + 2 + n)
    [(0, length a, 0, length b)] []
  = Difflib.get_matching_blocks a b.
Proof.
  unfold Difflib.get_matching_blocks.
  apply blocks_loop_fuel; [apply whole_range_ok | simpl; lia | simpl; lia].
Qed.

(** ** The three ratios *)

Lemma calculate_ratio_mono m1 m2 len :
  m1 <= m2 ->
  Qle (Difflib._calculate_ratio m1 len) (Difflib._calculate_ratio m2 len).
Proof.
  intros H. unfold Difflib._calculate_ratio.
  destruct (len =? 0); [apply Qle_refl|].
  unfold Qle. cbn [Qnum Qden]. apply Z.mul_le_mono_nonneg_r; lia.
Qed.

(** [ratio() <= quick_ratio() <= real_quick_ratio()] *)
Lemma ratio_le_quick a b : Qle (Difflib.ratio a b) (Difflib.quick_ratio a b).
Proof.
  unfold Difflib.ratio, Difflib.quick_ratio. apply calculate_ratio_mono.
  rewrite quick_loop_common. apply matching_blocks_common.
Qed.

Lemma quick_le_real_quick a b :
  Qle (Difflib.quick_ratio a b) (Difflib.real_quick_ratio a b).
Proof.
  unfold Difflib.quick_ratio, Difflib.real_quick_ratio.
  apply calculate_ratio_mono. rewrite quick_loop_common.
  pose proof (common_le_left a b). pose proof (common_le_right a b). lia.
Qed.

(** The two cheap tests never reject what the full test accepts. *)
Lemma clears_ratio cutoff word x :
  Difflib.clears cutoff word x = Qle_bool cutoff (Difflib.ratio x word).
Proof.
  unfold Difflib.clears.
  destruct (Qle_bool cutoff (Difflib.ratio x word)) eqn:E;
    [|apply andb_false_r].
  apply Qle_bool_iff in E.
  assert (E2 : Qle cutoff (Difflib.quick_ratio x word))
    by (eapply Qle_trans; [exact E | apply ratio_le_quick]).
  assert (E3 : Qle cutoff (Difflib.real_quick_ratio x word))
    by (eapply Qle_trans; [exact E2 | apply quick_le_real_quick]).
  apply Qle_bool_iff in E2, E3. now rewrite E2, E3.
Qed.

(** ** The Language Resolver *)

Lemma scored_gtb_true p q :
  Difflib.scored_gtb p q = true -> Qle (fst q) (fst p).
Proof.
  unfold Difflib.scored_gtb. destruct (Qeq_bool (fst p) (fst q)) eqn:E.
  - intros _. apply Qeq_bool_iff in E. rewrite E. apply Qle_refl.
  - intros H. apply negb_true_iff in H.
    apply Qlt_le_weak, Qnot_le_lt. intros Hle.
    apply Qle_bool_iff in Hle. congruence.
Qed.

Lemma scored_gtb_false p q :
  Difflib.scored_gtb p q = false -> Qle (fst p) (fst q).
Proof.
  unfold Difflib.scored_gtb. destruct (Qeq_bool (fst p) (fst q)) eqn:E.
  - intros _. apply Qeq_bool_iff in E. rewrite E. apply Qle_refl.
  - intros H. apply negb_false_iff in H. now apply Qle_bool_iff.
Qed.

Lemma max_from_in l : forall cur, In (Difflib.max_from cur l) (cur :: l).
Proof.
  induction l as [|x t IH]; intros cur; simpl; [auto|].
  destruct (IH (if Difflib.scored_gtb x cur then x else cur)) as [H | H].
  - destruct (Difflib.scored_gtb x cur); rewrite <- H; auto.
  - auto.
Qed.

Lemma max_from_ge l :
  forall cur y,
    In y (cur :: l) -> Qle (fst y) (fst (Difflib.max_from cur l)).
Proof.
  induction l as [|x t IH]; intros cur y Hy; simpl.
  - destruct Hy as [<- | []]. apply Qle_refl.
  - set (cur' := if Difflib.scored_gtb x cur then x else cur).
    assert (Hcur : Qle (fst cur) (fst cur') /\ Qle (fst x) (fst cur')).
    { unfold cur'. destruct (Difflib.scored_gtb x cur) eqn:E.
      - split; [now apply scored_gtb_true | apply Qle_refl].
      - split; [apply Qle_refl | now apply scored_gtb_false]. }
    destruct Hcur as [H1 H2].
    destruct Hy as [<- | [<- | Hy]].
    + eapply Qle_trans; [exact H1 | apply IH; now left].
    + eapply Qle_trans; [exact H2 | apply IH; now left].
    + apply IH. now right.
Qed.

(** The scored candidates of [get_close_matches]. *)
Lemma scored_candidates word possibilities c s x :
  In (s, x)
    (flat_map (fun x => if Difflib.clears c word x
                        then [(Difflib.ratio x word, x)] else [])
       possibilities)
  <-> In x possibilities /\ Qle c (Difflib.ratio x word)
      /\ s = Difflib.ratio x word.
Proof.
  rewrite in_flat_map. split.
  - intros [y [Hy H]]. rewrite clears_ratio in H.
    destruct (Qle_bool c (Difflib.ratio y word)) eqn:E; [|contradiction].
    destruct H as [H | []]. inversion H; subst.
    apply Qle_bool_iff in E. auto.
  - intros [Hx [Hc ->]]. exists x. split; [exact Hx|].
    rewrite clears_ratio. apply Qle_bool_iff in Hc. rewrite Hc. now left.
Qed.

(** What the function computes: the candidate of greatest ratio among those
    that reach the cutoff, and [None] when there is none. *)
Lemma correct_spelling_body_spec user_input :
  let word := str_lower (match user_input with Some s => s | None => [] end) in
  (forall l, correct_spelling_body user_input = Some l ->
             In l LANGUAGE_CODES_keys
             /\ Qle cutoff (Difflib.ratio l word)
             /\ forall l', In l' LANGUAGE_CODES_keys ->
                           Qle (Difflib.ratio l' word) (Difflib.ratio l word))
  /\ (correct_spelling_body user_input = None
      <-> forall l, In l LANGUAGE_CODES_keys ->
                    Qlt (Difflib.ratio l word) cutoff).
Proof.
  intros word. unfold correct_spelling_body, Difflib.get_close_matches1.
  fold word.
  pose proof (scored_candidates word LANGUAGE_CODES_keys cutoff) as Hres.
  destruct (flat_map _ LANGUAGE_CODES_keys) as [|p t] eqn:E.
  - simpl. split; [discriminate|]. split; [|reflexivity].
    intros _ l Hl. apply Qnot_le_lt. intros Hc.
    apply (proj2 (Hres (Difflib.ratio l word) l)). auto.
  - cbn [Difflib.nlargest1 map].
    pose proof (max_from_in t p) as Hin.
    pose proof (max_from_ge t p) as Hge.
    destruct (Difflib.max_from p t) as [s m].
    apply Hres in Hin as [Hm [Hc Hs]]. subst s. simpl in Hge.
    split.
    + intros l H. inversion H; subst l. split; [exact Hm|].
      split; [exact Hc|]. intros l' Hl'.
      destruct (Qlt_le_dec (Difflib.ratio l' word) cutoff) as [Hlt | Hle].
      * apply Qlt_le_weak. eapply Qlt_le_trans; eassumption.
      * apply (Hge (Difflib.ratio l' word, l')).
        apply Hres. auto.
    + split; [discriminate|]. intros H. exfalso.
      apply (Qlt_not_le _ _ (H m Hm)). exact Hc.
Qed.

Lemma correct_spelling_sound w st user_input :
  spell_cache_sound w st ->
  fst (correct_spelling w user_input st) = correct_spelling_body user_input.
Proof.
  intros Hs. unfold correct_spelling.
  destruct (spell_getitem w st user_input) as [[v|] st1] eqn:E;
    [|reflexivity].
  simpl. eapply Hs. exact E.
Qed.

Lemma str_lower_idem s : str_lower (str_lower s) = str_lower s.
Proof.
  unfold str_lower. rewrite map_map. apply map_ext.
  intros c. char_cases c.
Qed.

(** C7: the Language Resolver lowercases its input and returns the one
    supported language whose similarity ratio to it is greatest, provided
    that ratio is at least 0.7, and absent when every candidate is below
    0.7; "tamill" gives "tamil" and "xyzzy" gives absent, in upper case
    as in lower case. *)
Theorem correct_spelling_closest (w : World) (st : spell_cache w)
  (user_input : option str) :
  spell_cache_sound w st ->
  let word := str_lower (match user_input with Some s => s | None => [] end) in
  let r := fst (correct_spelling w user_input st) in
  (forall l, r = Some l ->
             In l LANGUAGE_CODES_keys
             /\ Qle cutoff (Difflib.ratio l word)
             /\ forall l', In l' LANGUAGE_CODES_keys ->
                           Qle (Difflib.ratio l' word) (Difflib.ratio l word))
  /\ (r = None
      <-> forall l, In l LANGUAGE_CODES_keys ->
                    Qlt (Difflib.ratio l word) cutoff)
  /\ correct_spelling_body (Some (py "tamill")) = Some (py "tamil")
  /\ correct_spelling_body (Some (py "xyzzy")) = None
  /\ correct_spelling_body (Some (py "TAMILL")) = Some (py "tamil")
  /\ correct_spelling_body (Some (py "Tamill")) = Some (py "tamil")
  /\ correct_spelling_body (Some (py "XYZZY")) = None
  /\ (forall s, correct_spelling_body (Some s)
                = correct_spelling_body (Some (str_lower s))).
Proof.
  intros Hs word r. unfold r. rewrite (correct_spelling_sound _ _ _ Hs).
  destruct (correct_spelling_body_spec user_input) as [H1 H2].
  split; [exact H1|]. split; [exact H2|].
  repeat (split; [vm_compute; reflexivity|]).
  intros s. unfold correct_spelling_body. now rewrite str_lower_idem.
Qed.

Lemma empty_spell_cache_sound : spell_cache_sound offline_world [].
Proof. intros k v st' H. discriminate H. Qed.

Lemma correct_spelling_closest_witness :
  fst (correct_spelling offline_world (Some (py "Tamill")) [])
  = Some (py "tamil")
  /\ In (py "tamil") LANGUAGE_CODES_keys
  /\ Qle cutoff (Difflib.ratio (py "tamil") (str_lower (py "Tamill")))
  /\ forall l', In l' LANGUAGE_CODES_keys ->
                Qle (Difflib.ratio l' (str_lower (py "Tamill")))
                  (Difflib.ratio (py "tamil") (str_lower (py "Tamill"))).
Proof.
  split; [vm_compute; reflexivity|].
  refine (proj1 (correct_spelling_closest offline_world []
                   (Some (py "Tamill")) empty_spell_cache_sound)
            (py "tamil") _).
  vm_compute. reflexivity.
Defined.

(** * Further properties of the module *)

(** ** The Title Normalizer only deletes *)

Lemma Subseq_refl s : Subseq s s.
Proof. induction s; [constructor | now apply Subseq_keep]. Qed.

Lemma Subseq_nil_l s : Subseq [] s.
Proof. induction s; [constructor | now apply Subseq_drop]. Qed.

Lemma Subseq_trans s t u : Subseq s t -> Subseq t u -> Subseq s u.
Proof.
  intros H1 H2. revert s H1.
  induction H2 as [|x t u H IH|x t u H IH]; intros s H1.
  - exact H1.
  - apply Subseq_drop. now apply IH.
  - inversion H1; subst.
    + apply Subseq_drop. now apply IH.
    + apply Subseq_keep. now apply IH.
Qed.

Lemma Subseq_length s t : Subseq s t -> length s <= length t.
Proof. induction 1; simpl; lia. Qed.

Lemma Subseq_app_l pre s t : Subseq s t -> Subseq s (pre ++ t).
Proof. intros H. induction pre; simpl; [exact H | now apply Subseq_drop]. Qed.

Lemma Subseq_app s1 t1 s2 t2 :
  Subseq s1 t1 -> Subseq s2 t2 -> Subseq (s1 ++ s2) (t1 ++ t2).
Proof.
  intros H1 H2. induction H1; simpl;
    [exact H2 | now apply Subseq_drop | now apply Subseq_keep].
Qed.

Lemma Subseq_rev s t : Subseq s t -> Subseq (rev s) (rev t).
Proof.
  induction 1 as [|x s t H IH|x s t H IH]; simpl.
  - constructor.
  - rewrite <- (app_nil_r (rev s)). apply Subseq_app; [exact IH|].
    apply Subseq_nil_l.
  - apply Subseq_app; [exact IH | apply Subseq_refl].
Qed.

Lemma lstrip_Subseq s : Subseq (lstrip s) s.
Proof.
  induction s as [|c t IH]; simpl; [constructor|].
  destruct (isspace c); [now apply Subseq_drop | apply Subseq_refl].
Qed.

Lemma strip_Subseq s : Subseq (strip s) s.
Proof.
  unfold strip, rstrip. eapply Subseq_trans; [|apply lstrip_Subseq].
  rewrite <- (rev_involutive (lstrip s)) at 2.
  apply Subseq_rev, lstrip_Subseq.
Qed.

(** The cursor a match ends at is further along the same subject. *)
Lemma rmatch_suffix r :
  forall c k e,
    rmatch r c k = Some e ->
    exists c1 pre, k c1 = Some e /\ rest c = pre ++ rest c1.
Proof.
  induction r as [|p|r1 IH1 r2 IH2|r1 IH1 r2 IH2|r1 IH1| |]; intros c k e H;
    [simpl in H | simpl in H | simpl in H | simpl in H
    | change (star_loop (rmatch r1) k (S (length (rest c))) c = Some e) in H
    | simpl in H | simpl in H].
  - exists c, []. auto.
  - destruct (rest c) as [|x t] eqn:E; [discriminate|].
    destruct (p x); [|discriminate].
    exists (advance c t), [x]. auto.
  - apply IH1 in H as [c1 [pre1 [H E1]]]. apply IH2 in H as [c2 [pre2 [H E2]]].
    exists c2, (pre1 ++ pre2). split; [exact H|].
    now rewrite E1, E2, app_assoc.
  - destruct (rmatch r1 c k) eqn:E1.
    + inversion H; subst. now apply IH1 in E1.
    + now apply IH2 in H.
  - generalize dependent (S (length (rest c))). intros n. revert c.
    induction n as [|n IHn]; intros c H; simpl in H.
    + exists c, []. auto.
    + destruct (rmatch r1 c _) eqn:E1.
      * inversion H; subst. apply IH1 in E1 as [c1 [pre1 [Hk E1]]].
        destruct (length (rest c1) <? length (rest c)).
        -- apply IHn in Hk as [c2 [pre2 [Hk2 E2]]].
           exists c2, (pre1 ++ pre2). split; [exact Hk2|].
           now rewrite E1, E2, app_assoc.
        -- exists c1, pre1. auto.
      * exists c, []. auto.
  - destruct (pos c =? 0); [|discriminate]. exists c, []. auto.
  - exists c, []. split; [|reflexivity].
    destruct (rest c) as [|x [|y t]]; try discriminate; auto.
    destruct (ascii_eqb x newline); [assumption | discriminate].
Qed.

Lemma sub_loop_Subseq r fuel :
  forall c, Subseq (sub_loop fuel r c) (rest c).
Proof.
  induction fuel as [|f IH]; intros c; simpl; [apply Subseq_refl|].
  assert (Hstep : Subseq match rest c with
                         | [] => []
                         | x :: t => x :: sub_loop f r (advance c t)
                         end (rest c)).
  { destruct (rest c) as [|x t] eqn:E; [constructor|].
    apply Subseq_keep. apply (IH (advance c t)). }
  destruct (match_at r c) as [e|] eqn:Em; [|exact Hstep].
  destruct (length (rest e) <? length (rest c)); [|exact Hstep].
  apply rmatch_suffix in Em as [c1 [pre [Hk E]]]. inversion Hk; subst c1.
  rewrite E. apply Subseq_app_l, IH.
Qed.

Lemma sub_Subseq r s : Subseq (sub r s) s.
Proof. apply (sub_loop_Subseq r (S (length s)) (Cursor 0 s)). Qed.

Lemma apply_patterns_Subseq ps :
  forall s, Subseq (apply_patterns ps s) s.
Proof.
  unfold apply_patterns. induction ps as [|p ps IH]; intros s; simpl.
  - apply Subseq_refl.
  - eapply Subseq_trans; [apply IH | apply sub_Subseq].
Qed.

Lemma clean_title_Subseq t y : clean_title (Some t) = Some y -> Subseq y t.
Proof.
  unfold clean_title. destruct (is_empty t); [discriminate|].
  remember (apply_patterns TITLE_PATTERNS (strip t)) as z eqn:Ez.
  intros H. injection H as <-. subst z.
  eapply Subseq_trans; [apply strip_Subseq|].
  eapply Subseq_trans; [apply apply_patterns_Subseq | apply strip_Subseq].
Qed.

(** X1: the Title Normalizer only deletes: its result is the input with
    some characters removed, and is never longer than the input. *)
Theorem clean_title_only_deletes (t y : str) :
  clean_title (Some t) = Some y -> Subseq y t /\ length y <= length t.
Proof.
  intros H. apply clean_title_Subseq in H.
  split; [exact H | now apply Subseq_length].
Qed.

Lemma clean_title_only_deletes_witness :
  Subseq (py "Foo") (py "Einthusan - Foo [tamil] | einthusan bar")
  /\ length (py "Foo") <= length (py "Einthusan - Foo [tamil] | einthusan bar").
Proof.
  apply (clean_title_only_deletes
           (py "Einthusan - Foo [tamil] | einthusan bar") (py "Foo")).
  vm_compute. reflexivity.
Defined.

(** ** Results of the Title Normalizer are trimmed *)

Lemma strip_no_outer_space s : no_outer_space (strip s).
Proof.
  split.
  - intros c Hc. rewrite <- strip_idem in Hc. unfold strip at 1 in Hc.
    pose proof (lstrip_head (strip s)) as Hh.
    destruct (lstrip (strip s)) as [|x t] eqn:E.
    + discriminate Hc.
    + rewrite rstrip_cons in Hc by assumption. simpl in Hc. congruence.
  - intros c Hc. unfold strip, rstrip in Hc. rewrite rev_involutive in Hc.
    pose proof (lstrip_head (rev (lstrip s))) as Hh.
    destruct (lstrip (rev (lstrip s))) as [|x t]; [discriminate|].
    simpl in Hc. congruence.
Qed.

Lemma clean_title_no_outer_space x y :
  clean_title x = Some y -> no_outer_space y.
Proof.
  destruct x as [t|]; unfold clean_title; [|discriminate].
  destruct (is_empty t); [discriminate|].
  remember (apply_patterns TITLE_PATTERNS (strip t)) as z eqn:Ez.
  intros H. injection H as <-. apply strip_no_outer_space.
Qed.

(** X2: a result of the Title Normalizer neither starts nor ends with
    whitespace, whatever the rules removed. *)
Theorem clean_title_trimmed (x : option str) (y : str) :
  clean_title x = Some y ->
  (forall c t, y = c :: t -> isspace c = false)
  /\ (forall t c, y = t ++ [c] -> isspace c = false).
Proof.
  intros H. apply clean_title_no_outer_space in H as [H1 H2]. split.
  - intros c t ->. now apply H1.
  - intros t c ->. apply H2. now rewrite rev_app_distr.
Qed.

Lemma clean_title_trimmed_witness :
  (forall c t, py "Vikram" = c :: t -> isspace c = false)
  /\ (forall t c, py "Vikram" = t ++ [c] -> isspace c = false).
Proof.
  apply (clean_title_trimmed
           (Some (py "  Vikram (2022) Tamil in HD - Einthusan  "))).
  vm_compute. reflexivity.
Defined.

(** X3: surrounding whitespace of the input does not matter: the Code
    Detector gives the same answer on the trimmed string, and so does the
    Title Normalizer unless the input is blank (a blank, non-empty input
    gives the empty string, the empty input gives absent). *)
Theorem surrounding_whitespace_ignored (s : str) :
  looks_like_code (Some s) = looks_like_code (Some (strip s))
  /\ (strip s <> [] -> clean_title (Some s) = clean_title (Some (strip s)))
  /\ (s <> [] -> strip s = [] -> clean_title (Some s) = Some []).
Proof.
  split; [|split].
  - unfold looks_like_code. rewrite strip_idem.
    destruct (is_empty s) eqn:Es.
    + apply is_empty_nil in Es. subst s. reflexivity.
    + destruct (is_empty (strip s)); reflexivity.
  - intros Hne. unfold clean_title. rewrite strip_idem.
    apply is_empty_false in Hne. rewrite Hne.
    destruct (is_empty s) eqn:Es; [|reflexivity].
    apply is_empty_nil in Es. subst s. discriminate Hne.
  - intros Hne Hb. unfold clean_title.
    apply is_empty_false in Hne. rewrite Hne, Hb. reflexivity.
Qed.

(** ** What the Page Title Extractor returns *)

Lemma cleaned_if_any_cleaned raw t :
  cleaned_if_any raw = Some t ->
  exists r, raw = Some r /\ clean_title (Some r) = Some t.
Proof.
  unfold cleaned_if_any. destruct raw as [[|c r]|]; try discriminate.
  match goal with
  | |- context [Dom.truthy (clean_title ?x)] =>
      remember (clean_title x) as o eqn:Eo
  end.
  destruct o as [[|x y]|]; cbn [Dom.truthy]; try discriminate.
  intros H. exists (c :: r). split; [reflexivity|]. rewrite <- Eo. exact H.
Qed.

Lemma try_extract_title_cleaned soup t :
  try_extract_title_from_dom soup = Some t ->
  exists raw, In (Some raw) (title_sources soup)
              /\ clean_title (Some raw) = Some t.
Proof.
  intros H. unfold try_extract_title_from_dom in H. unfold title_sources.
  destruct (cleaned_if_any
              match Dom.find _ soup with
              | Some m => Dom.get m "content"
              | None => None
              end) as [t1|] eqn:E1.
  { injection H as ->. apply cleaned_if_any_cleaned in E1 as [r [Er Hc]].
    exists r. rewrite Er. split; [now left | exact Hc]. }
  destruct (cleaned_if_any
              (option_map Dom.text (Dom.find (Dom.has_name "title") soup)))
    as [t2|] eqn:E2.
  { injection H as ->. apply cleaned_if_any_cleaned in E2 as [r [Er Hc]].
    exists r. rewrite Er. split; [right; now left | exact Hc]. }
  apply cleaned_if_any_cleaned in H as [r [Er Hc]].
  exists r. rewrite Er. split; [right; right; now left | exact Hc].
Qed.

(** X4: a title returned by the Page Title Extractor is not empty, has no
    whitespace at either end, and is the cleaned text of one of its three
    sources, so it is that text with some characters removed. *)
Theorem try_extract_title_from_source (soup : node) (t : str) :
  try_extract_title_from_dom soup = Some t ->
  t <> [] /\ no_outer_space t
  /\ exists raw, In (Some raw) (title_sources soup)
                 /\ clean_title (Some raw) = Some t
                 /\ Subseq t raw.
Proof.
  intros H. split; [eapply try_extract_title_nonempty; eassumption|].
  destruct (try_extract_title_cleaned soup t H) as [raw [Hin Hc]]. split.
  - eapply clean_title_no_outer_space. exact Hc.
  - exists raw. split; [exact Hin|]. split; [exact Hc|].
    now apply clean_title_Subseq.
Qed.

Lemma try_extract_title_from_source_witness :
  py "Vikram" <> [] /\ no_outer_space (py "Vikram")
  /\ exists raw,
      In (Some raw)
        (title_sources (detail_page "Vikram (2022) Tamil in HD - Einthusan"))
      /\ clean_title (Some raw) = Some (py "Vikram")
      /\ Subseq (py "Vikram") raw.
Proof.
  apply (try_extract_title_from_source
           (detail_page "Vikram (2022) Tamil in HD - Einthusan") (py "Vikram")).
  vm_compute. reflexivity.
Defined.

(** ** Records of the Listing Parser *)

Lemma startswith_app p s : startswith (p ++ s) p = true.
Proof.
  unfold startswith.
  now rewrite (proj2 (strip_prefix_spec p (p ++ s) s) eq_refl).
Qed.

Lemma resolve_img_url_absolute img :
  startswith (resolve_img_url img) (py "//") = false.
Proof.
  unfold resolve_img_url.
  set (u := match Dom.or_else _ _ with Some u => u | None => [] end).
  destruct (startswith u (py "//")) eqn:E; [reflexivity | exact E].
Qed.

Lemma first_title_cleaned cs t :
  first_title cs = Some t -> exists c, clean_title (Some c) = Some t.
Proof.
  induction cs as [|c cs IH]; [discriminate|].
  rewrite first_title_step.
  destruct (qualifies (clean_title (Some c))); [eauto | exact IH].
Qed.

Lemma untitled_no_outer_space : no_outer_space untitled.
Proof. split; intros c H; vm_compute in H; injection H as <-; reflexivity. Qed.

Lemma get_title_trimmed w url st t st' :
  get_title_from_movie_page w url st = (Ret (Some t), st') ->
  no_outer_space t.
Proof.
  rewrite get_title_from_movie_page_unfold.
  destruct (fetch_page w url st) as [[content|e] st1]; [|discriminate].
  destruct (falsy content); [discriminate|].
  destruct (BeautifulSoup w content) as [soup|e]; [|discriminate].
  intros H. injection H as H _.
  apply try_extract_title_cleaned in H as [raw [_ Hc]].
  eapply clean_title_no_outer_space. exact Hc.
Qed.

Lemma process_movie_block_well_formed w div st m st' :
  process_movie_block w div st = (Ret (Some m), st') -> well_formed m.
Proof.
  intros H. split; [eapply process_movie_block_title; eassumption|].
  revert H. unfold process_movie_block.
  destruct (Dom.find (Dom.has_name "a") div) as [a|]; [|discriminate].
  destruct (Dom.find (Dom.has_name "img") div) as [img|]; [|discriminate].
  unfold bind, ret.
  assert (Hrest : forall t u,
             startswith (page_url (Movie t (resolve_img_url img)
                                     (site_origin ++ u))) site_origin = true
             /\ startswith (img_url (Movie t (resolve_img_url img)
                                       (site_origin ++ u))) (py "//") = false).
  { intros t u. split; [apply startswith_app | apply resolve_img_url_absolute]. }
  destruct (needs_fallback (first_title _)) eqn:Hfb.
  - destruct (get_title_from_movie_page w _ st) as [[t|e] st1] eqn:Ht;
      [|discriminate].
    intros H. injection H as <- _. split; [|apply Hrest].
    cbn [title]. destruct t as [[|c r]|]; cbn [Dom.truthy];
      try apply untitled_no_outer_space.
    eapply get_title_trimmed. exact Ht.
  - intros H. injection H as <- _. split; [|apply Hrest].
    cbn [title]. destruct (first_title _) as [t|] eqn:Et;
      [|apply untitled_no_outer_space].
    apply first_title_cleaned in Et as [c Hc].
    eapply clean_title_no_outer_space. exact Hc.
Qed.

Lemma collect_movies_well_formed w blocks :
  forall acc st ms st',
    Forall well_formed acc ->
    collect_movies w blocks acc st = (Ret ms, st') ->
    Forall well_formed ms /\ exists new, ms = acc ++ new.
Proof.
  induction blocks as [|b bs IH]; intros acc st ms st' Hacc H; simpl in H.
  - injection H as <- _. split; [exact Hacc|]. exists []. now rewrite app_nil_r.
  - unfold bind in H.
    destruct (process_movie_block w b st) as [[r|e] st1] eqn:Hp;
      [|discriminate].
    destruct r as [m|].
    + apply IH in H as [Hms [new Hnew]].
      * split; [exact Hms|]. exists (m :: new).
        now rewrite Hnew, <- app_assoc.
      * apply Forall_app. split; [exact Hacc|].
        constructor; [|constructor].
        eapply process_movie_block_well_formed. exact Hp.
    + now apply IH in H.
Qed.

(** X5: when [fetch_movies_by_url] computes its result (cache miss), the
    result is a list of records, each with a title that is not empty and
    has no whitespace at either end, a page URL under the site origin, and
    an image URL that is not protocol-relative. *)
Theorem fetch_movies_by_url_records (w : World) (url : str)
  (st st0 st' : fetch_page_cache w) (v : value) :
  cache_getitem w st url = (None, st0) ->
  fetch_movies_by_url w url st = (Ret v, st') ->
  exists l, v = VMovies l /\ Forall well_formed l.
Proof.
  intros Hmiss. unfold fetch_movies_by_url.
  rewrite (cached_miss _ _ _ _ _ Hmiss).
  unfold fetch_movies_by_url_body, bind, ret, lift.
  destruct (fetch_page w url st0) as [[content|e] st1]; [|discriminate].
  destruct (falsy content).
  - intros H. injection H as <- _. exists []. split; [reflexivity|constructor].
  - destruct (BeautifulSoup w content) as [soup|e]; [|discriminate].
    destruct (collect_movies w _ [] st1) as [[ms|e] st2] eqn:Hc;
      [|discriminate].
    intros H. injection H as <- _. exists ms. split; [reflexivity|].
    now apply collect_movies_well_formed in Hc.
Qed.

Lemma fetch_movies_by_url_records_witness :
  exists l,
    VMovies [Movie (py "Vikram") (py "https://cdn/x.jpg")
               (py "https://einthusan.tv/movie/watch/53BA/")]
    = VMovies l
    /\ Forall well_formed l.
Proof.
  refine (fetch_movies_by_url_records
            (simple_world (net_status 200)
               (fun _ => Ret (Tag (py "[document]") []
                                [listing_block "Vikram (2022)"])))
            (py "https://einthusan.tv/movie/results/?find=Recent") [] []
            _ _ eq_refl _).
  vm_compute. reflexivity.
Defined.

(** ** The Video URL Extractor stays on the CDN *)

Lemma extract_video_url_prefix w url st st' u :
  extract_video_url w url st = (Ret (Some u), st') ->
  exists tail, u = cdn_etv ++ tail.
Proof.
  rewrite extract_video_url_unfold.
  destruct (fetch_page w url st) as [[content|e] st1]; [|discriminate].
  destruct (falsy content); [discriminate|].
  unfold video_url_of, try_except, is_Exception.
  destruct (BeautifulSoup w content) as [soup|e]; [|discriminate].
  destruct (Dom.find _ soup) as [player|]; [|discriminate].
  destruct (Dom.get player "data-mp4-link") as [link|]; [|discriminate].
  destruct (Dom.truthy (Some link) && contains etv link); [|discriminate].
  destruct (split_first etv link) as [[pre tail]|]; [|discriminate].
  intros H. exists tail. congruence.
Qed.

(** X6: a URL returned by the Video URL Extractor always starts with
    "https://cdn1.einthusan.io/etv", whatever the page holds and whether the
    page came from the network or the cache. *)
Theorem extract_video_url_on_cdn (w : World) (url : str)
  (st st' : fetch_page_cache w) (u : str) :
  extract_video_url w url st = (Ret (Some u), st') ->
  startswith u cdn_etv = true /\ exists tail, u = cdn_etv ++ tail.
Proof.
  intros H. apply extract_video_url_prefix in H as [tail ->].
  split; [apply startswith_app | eauto].
Qed.

Lemma extract_video_url_on_cdn_witness :
  startswith (py "https://cdn1.einthusan.io/etv/abc123.mp4") cdn_etv = true
  /\ exists tail,
      py "https://cdn1.einthusan.io/etv/abc123.mp4" = cdn_etv ++ tail.
Proof.
  refine (extract_video_url_on_cdn
            (simple_world (net_status 200)
               (fun _ => Ret (player_page ".../etv/abc123.mp4")))
            (py "https://einthusan.tv/movie/watch/53BA/") []
            [(py "https://einthusan.tv/movie/watch/53BA/", VBytes page_bytes)]
            _ _).
  vm_compute. reflexivity.
Defined.

(** ** One cache, one key, two functions *)

Lemma fetch_page_miss_value w url st st0 v st' :
  cache_getitem w st url = (None, st0) ->
  fetch_page w url st = (Ret v, st') ->
  (v = VNone \/ exists b, v = VBytes b) /\ st' = cache_setitem w st0 url v.
Proof.
  intros Hmiss. unfold fetch_page. rewrite (cached_miss _ _ _ _ _ Hmiss).
  unfold lift. pose proof (fetch_page_body_cases w url) as Hb.
  destruct (SESSION_get w url) as [resp|e]; rewrite Hb.
  - destruct (_ && _)%bool; intros H; injection H as <- <-; eauto.
  - destruct (is_RequestException e); [|discriminate].
    intros H; injection H as <- <-; eauto.
Qed.

Lemma fetch_movies_by_url_miss_value w url st st0 v st' :
  cache_getitem w st url = (None, st0) ->
  fetch_movies_by_url w url st = (Ret v, st') ->
  (exists l, v = VMovies l) /\ exists st2, st' = cache_setitem w st2 url v.
Proof.
  intros Hmiss. unfold fetch_movies_by_url.
  rewrite (cached_miss _ _ _ _ _ Hmiss).
  destruct (fetch_movies_by_url_body w url st0) as [[v0|e] st2] eqn:Hb;
    [|discriminate].
  intros H. injection H as <- <-. split; [|eauto].
  revert Hb. unfold fetch_movies_by_url_body, bind, ret, lift.
  destruct (fetch_page w url st0) as [[content|e] st1]; [|discriminate].
  destruct (falsy content); [intros H; injection H as <- _; eauto|].
  destruct (BeautifulSoup w content) as [soup|e]; [|discriminate].
  destruct (collect_movies w _ [] st1) as [[ms|e] st3]; [|discriminate].
  intros H; injection H as <- _; eauto.
Qed.

(** X7: [fetch_page] and [fetch_movies_by_url] memoise into the same cache
    under the same key: once [fetch_movies_by_url(url)] has computed its
    list, and while that entry is live, [fetch_page(url)] returns the list
    of records instead of page bytes. *)
Theorem fetch_page_returns_cached_listing (w : World) (url : str)
  (st st0 st' : fetch_page_cache w) (v : value) :
  stores_live w ->
  cache_getitem w st url = (None, st0) ->
  fetch_movies_by_url w url st = (Ret v, st') ->
  (exists l, v = VMovies l)
  /\ exists st'', fetch_page w url st' = (Ret v, st'').
Proof.
  intros Hlive Hmiss H.
  destruct (fetch_movies_by_url_miss_value w url st st0 v st' Hmiss H)
    as [Hl [st2 ->]].
  split; [exact Hl|].
  destruct (Hlive st2 url v) as [s' Hs']. exists s'.
  unfold fetch_page. apply cached_hit. exact Hs'.
Qed.

Lemma simple_world_stores_live net parser :
  stores_live (simple_world net parser).
Proof.
  intros s k x. exists ((k, x) :: s). simpl.
  assert (E : str_eqb k k = true).
  { induction k as [|c k IH]; simpl; [reflexivity|].
    unfold ascii_eqb. now rewrite Ascii.eqb_refl. }
  now rewrite E.
Qed.

Lemma fetch_page_returns_cached_listing_witness :
  let w := simple_world (net_status 200)
             (fun _ => Ret (Tag (py "[document]") []
                              [listing_block "Vikram (2022)"])) in
  let url := py "https://einthusan.tv/movie/results/?find=Recent" in
  let v := VMovies [Movie (py "Vikram") (py "https://cdn/x.jpg")
                      (py "https://einthusan.tv/movie/watch/53BA/")] in
  (exists l, v = VMovies l)
  /\ exists st'',
      fetch_page w url [(url, v); (url, VBytes page_bytes)] = (Ret v, st'').
Proof.
  intros w url v.
  refine (fetch_page_returns_cached_listing w url [] [] _ v
            (simple_world_stores_live _ _) eq_refl _).
  vm_compute. reflexivity.
Defined.

(** X8: conversely, once [fetch_page(url)] has stored the bytes of a page
    (or [None] after a failure), and while that entry is live,
    [fetch_movies_by_url(url)] returns those bytes (or [None]) instead of a
    list of records. *)
Theorem fetch_movies_by_url_returns_cached_page (w : World) (url : str)
  (st st0 st' : fetch_page_cache w) (v : value) :
  stores_live w ->
  cache_getitem w st url = (None, st0) ->
  fetch_page w url st = (Ret v, st') ->
  (v = VNone \/ exists b, v = VBytes b)
  /\ exists st'', fetch_movies_by_url w url st' = (Ret v, st'').
Proof.
  intros Hlive Hmiss H.
  destruct (fetch_page_miss_value w url st st0 v st' Hmiss H) as [Hv ->].
  split; [exact Hv|].
  destruct (Hlive st0 url v) as [s' Hs']. exists s'.
  unfold fetch_movies_by_url. apply cached_hit. exact Hs'.
Qed.

Lemma fetch_movies_by_url_returns_cached_page_witness :
  let w := simple_world (net_status 200) (fun _ => Raise OtherException) in
  let url := py "https://einthusan.tv/movie/watch/53BA/" in
  (VBytes page_bytes = VNone \/ exists b, VBytes page_bytes = VBytes b)
  /\ exists st'',
      fetch_movies_by_url w url [(url, VBytes page_bytes)]
      = (Ret (VBytes page_bytes), st'').
Proof.
  intros w url.
  exact (fetch_movies_by_url_returns_cached_page w url [] []
           [(url, VBytes page_bytes)] (VBytes page_bytes)
           (simple_world_stores_live _ _) eq_refl eq_refl).
Defined.

(** ** A failed request *)

Lemma fetch_page_body_fails w url :
  fetch_fails w url -> fetch_page_body w url = Ret VNone.
Proof.
  unfold fetch_fails. intros H.
  pose proof (fetch_page_body_cases w url) as Hb.
  destruct (SESSION_get w url) as [resp|e]; rewrite Hb.
  - destruct H as [H1 H2]. apply Z.leb_le in H1. apply Z.ltb_lt in H2.
    now rewrite H1, H2.
  - now rewrite H.
Qed.

Lemma fetch_page_fails w url st st0 :
  fetch_fails w url ->
  cache_getitem w st url = (None, st0) ->
  fetch_page w url st = (Ret VNone, cache_setitem w st0 url VNone).
Proof.
  intros Hf Hmiss. unfold fetch_page. rewrite (cached_miss _ _ _ _ _ Hmiss).
  unfold lift. now rewrite (fetch_page_body_fails w url Hf).
Qed.

(** X9: when the request fails (request exception, 4xx or 5xx) and nothing
    is cached for the URL, the scraping functions degrade instead of
    raising: the listing is the empty list, the page title and the video
    URL are absent. *)
Theorem failed_fetch_degrades (w : World) (url : str)
  (st st0 st1 : fetch_page_cache w) :
  fetch_fails w url ->
  cache_getitem w st url = (None, st0) ->
  cache_getitem w st0 url = (None, st1) ->
  fst (fetch_movies_by_url w url st) = Ret (VMovies [])
  /\ fst (get_title_from_movie_page w url st) = Ret None
  /\ fst (extract_video_url w url st) = Ret None.
Proof.
  intros Hf Hm Hm0. split; [|split].
  - unfold fetch_movies_by_url. rewrite (cached_miss _ _ _ _ _ Hm).
    unfold fetch_movies_by_url_body, bind.
    now rewrite (fetch_page_fails w url st0 st1 Hf Hm0).
  - rewrite get_title_from_movie_page_unfold.
    now rewrite (fetch_page_fails w url st st0 Hf Hm).
  - rewrite extract_video_url_unfold.
    now rewrite (fetch_page_fails w url st st0 Hf Hm).
Qed.

Lemma failed_fetch_degrades_witness :
  let w := simple_world (net_status 503) (fun _ => Raise OtherException) in
  let url := py "https://einthusan.tv/movie/results/?find=Recent" in
  fst (fetch_movies_by_url w url []) = Ret (VMovies [])
  /\ fst (get_title_from_movie_page w url []) = Ret None
  /\ fst (extract_video_url w url []) = Ret None.
Proof.
  intros w url.
  apply (failed_fetch_degrades w url [] [] []).
  - unfold fetch_fails, w. simpl. lia.
  - reflexivity.
  - reflexivity.
Defined.

(** ** The query string of [search_movie] *)

Lemma quote_byte_safe b : forallb url_safe (Urllib.quote_byte b) = true.
Proof. char_cases b. Qed.

Lemma url_safe_plain c :
  url_safe c = true ->
  isspace c = false /\ existsb (ascii_eqb c) (py "&=#?/") = false
  /\ (code c < 128)%N.
Proof. char_cases c; repeat split; reflexivity. Qed.

Lemma quote_plus_url_safe s c : In c (Urllib.quote_plus s) -> url_safe c = true.
Proof.
  unfold Urllib.quote_plus. intros H. apply in_flat_map in H as [b [_ Hc]].
  pose proof (quote_byte_safe b) as Hb.
  rewrite forallb_forall in Hb. now apply Hb.
Qed.

(** X10: the quoted query of a search URL consists of ASCII characters
    only and holds no whitespace and none of [& = # ? /], so it cannot
    change the structure of the URL it is put in. *)
Theorem quote_plus_alphabet (s : str) (c : ascii) :
  In c (Urllib.quote_plus s) ->
  isspace c = false /\ existsb (ascii_eqb c) (py "&=#?/") = false
  /\ (code c < 128)%N.
Proof. intros H. apply url_safe_plain. eapply quote_plus_url_safe, H. Qed.

Lemma quote_plus_alphabet_witness :
  isspace (ascii_of_N 43) = false
  /\ existsb (ascii_eqb (ascii_of_N 43)) (py "&=#?/") = false
  /\ (code (ascii_of_N 43) < 128)%N.
Proof.
  apply (quote_plus_alphabet (py "a b&c") (ascii_of_N 43)).
  right. left. reflexivity.
Defined.

Lemma decode_quote_char c rest :
  decode_quoted (flat_map Urllib.quote_byte (Urllib.utf8_encode_char c) ++ rest)
  = Some (c, rest).
Proof. char_cases c. Qed.

Lemma quote_plus_cons c s :
  Urllib.quote_plus (c :: s)
  = flat_map Urllib.quote_byte (Urllib.utf8_encode_char c)
    ++ Urllib.quote_plus s.
Proof.
  unfold Urllib.quote_plus, Urllib.utf8_encode. simpl flat_map at 2.
  now rewrite flat_map_app.
Qed.

Lemma quote_plus_injective s1 :
  forall s2, Urllib.quote_plus s1 = Urllib.quote_plus s2 -> s1 = s2.
Proof.
  induction s1 as [|c1 s1 IH]; intros [|c2 s2] H.
  - reflexivity.
  - rewrite quote_plus_cons in H. apply (f_equal decode_quoted) in H.
    rewrite decode_quote_char in H. discriminate H.
  - rewrite quote_plus_cons in H. apply (f_equal decode_quoted) in H.
    rewrite decode_quote_char in H. discriminate H.
  - rewrite !quote_plus_cons in H. apply (f_equal decode_quoted) in H.
    rewrite !decode_quote_char in H. injection H as -> H.
    f_equal. now apply IH.
Qed.

(** X11: quoting loses nothing: two searches in a language have the same
    listing URL, which is also their cache key in [fetch_movies_by_url],
    exactly when their titles are equal. *)
Theorem search_url_injective (lang_code q1 q2 : str) :
  search_url lang_code q1 = search_url lang_code q2 <-> q1 = q2.
Proof.
  split; [|now intros ->].
  unfold search_url. intros H.
  apply app_inv_head in H. apply app_inv_head in H. apply app_inv_head in H.
  now apply quote_plus_injective.
Qed.

(** ** [search_movie] and the Language Resolver *)

Lemma language_key_accepted l :
  In l LANGUAGE_CODES_keys ->
  LANGUAGE_CODES_get (str_lower l) = Some l /\ is_empty l = false.
Proof.
  intros H. simpl in H.
  repeat (destruct H as [<- | H]; [split; reflexivity|]). contradiction.
Qed.

(** X12: [search_movie] does not fetch anything for a language that is not
    a key of [LANGUAGE_CODES] and returns the empty list, which its cache
    then holds; for every language the Language Resolver returns it fetches
    the listing URL of that language and the quoted title. *)
Theorem search_movie_language (w : World) (sc : SearchCache)
  (language movie_title : str) :
  (forall st,
      LANGUAGE_CODES_get (str_lower language) = None ->
      search_movie_body w language movie_title st = (Ret (VMovies []), st))
  /\ (forall s s1 p,
         LANGUAGE_CODES_get (str_lower language) = None ->
         search_getitem sc s (language, movie_title) = (None, s1) ->
         search_movie w sc language movie_title (s, p)
         = (Ret (VMovies []),
            (search_setitem sc s1 (language, movie_title) (VMovies []), p)))
  /\ (forall user_input l st,
         correct_spelling_body user_input = Some l ->
         search_movie_body w l movie_title st
         = fetch_movies_by_url w (search_url l movie_title) st).
Proof.
  split; [|split].
  - intros st H. unfold search_movie_body. now rewrite H.
  - intros s s1 p H Hm. unfold search_movie. cbn [fst snd]. rewrite Hm.
    unfold search_movie_body. now rewrite H.
  - intros user_input l st H.
    destruct (correct_spelling_body_spec user_input) as [H1 _].
    destruct (H1 l H) as [Hin _].
    destruct (language_key_accepted l Hin) as [Hg He].
    unfold search_movie_body. now rewrite Hg, He.
Qed.

(** X13: every supported language name resolves to itself, in whatever
    letter case it is written. *)
Theorem correct_spelling_exact_name (s : str) :
  In (str_lower s) LANGUAGE_CODES_keys ->
  correct_spelling_body (Some s) = Some (str_lower s).
Proof.
  intros H. unfold correct_spelling_body. simpl in H.
  repeat (destruct H as [H | H]; [rewrite <- H; vm_compute; reflexivity|]).
  contradiction.
Qed.

Lemma correct_spelling_exact_name_witness :
  correct_spelling_body (Some (py "MalayaLam"))
  = Some (str_lower (py "MalayaLam")).
Proof.
  apply (correct_spelling_exact_name (py "MalayaLam")).
  vm_compute. tauto.
Defined.

(** ** The [/watch] route *)

Lemma watch_title_ok (title : option str) :
  let t := if negb (Dom.truthy title) || looks_like_code title then unknown
           else match title with Some t => t | None => unknown end in
  t <> [] /\ looks_like_code (Some t) = false.
Proof.
  intros t. unfold t.
  destruct (negb (Dom.truthy title) || looks_like_code title) eqn:E.
  - split; [discriminate | reflexivity].
  - apply orb_false_iff in E as [E1 E2]. apply negb_false_iff in E1.
    destruct title as [[|c r]|]; try discriminate E1.
    split; [discriminate | exact E2].
Qed.

(** X14: the [/watch] route answers 400 without fetching anything when the
    [url] parameter is missing or blank; whenever it answers with a title
    and a video URL, the title is not empty and not flagged by the Code
    Detector, and the video URL starts with
    "https://cdn1.einthusan.io/etv". *)
Theorem watch_reply (w : World) (unquote : str -> str)
  (url_arg title_arg : option str) (st : fetch_page_cache w) :
  (arg_stripped url_arg = [] ->
   watch w unquote url_arg title_arg st
   = (Ret (Json_error 400 (py "Movie URL missing")), st))
  /\ (forall t u st',
         watch w unquote url_arg title_arg st = (Ret (Json_watch t u), st') ->
         t <> [] /\ looks_like_code (Some t) = false
         /\ startswith u cdn_etv = true).
Proof.
  split.
  - intros H. unfold watch. now rewrite H.
  - intros t u st'. unfold watch.
    destruct (is_empty (arg_stripped url_arg)); [discriminate|].
    unfold bind at 1.
    destruct ((if negb (is_empty (arg_stripped title_arg))
               then ret w (Some (unquote (arg_stripped title_arg)))
               else _) st) as [[title|e] st1]; [|discriminate].
    pose proof (watch_title_ok title) as Ht. cbv zeta in Ht.
    set (T := if negb (Dom.truthy title) || looks_like_code title
              then unknown
              else match title with Some t0 => t0 | None => unknown end) in *.
    unfold bind.
    destruct (extract_video_url w (arg_stripped url_arg) st1)
      as [[[v|]|e] st2] eqn:Ev; try discriminate.
    destruct v as [|c r]; [discriminate|]. cbn [Dom.truthy negb].
    unfold ret. intros H.
    assert (Et : t = T) by congruence.
    assert (Eu : u = c :: r) by congruence. subst t u.
    destruct Ht as [Ht1 Ht2]. split; [exact Ht1|]. split; [exact Ht2|].
    apply extract_video_url_prefix in Ev as [tail ->].
    apply startswith_app.
Qed.

(** ** Inputs the Language Resolver cannot resolve *)

Lemma str_lower_length s : length (str_lower s) = length s.
Proof. apply length_map. Qed.

Lemma Zpos_of_nat n : n <> 0 -> Z.pos (Pos.of_nat n) = Z.of_nat n.
Proof.
  intros H. rewrite <- positive_nat_Z. now rewrite Nat2Pos.id.
Qed.

(** The length test of [real_quick_ratio] against the cutoff. *)
Lemma real_quick_ratio_lengths (x word : str) :
  Qle cutoff (Difflib.real_quick_ratio x word) ->
  x <> [] ->
  7 * (length x + length word) <= 20 * Nat.min (length x) (length word).
Proof.
  unfold Difflib.real_quick_ratio, Difflib._calculate_ratio, cutoff.
  intros H Hx.
  assert (Hn : length x + length word <> 0).
  { destruct x; [contradiction | simpl; lia]. }
  destruct (length x + length word =? 0) eqn:E.
  { apply Nat.eqb_eq in E. contradiction. }
  unfold Qle in H. cbn [Qnum Qden] in H.
  rewrite (Zpos_of_nat _ Hn) in H. lia.
Qed.

(** X15: the Language Resolver returns absent for an absent input and for
    every input shorter than 3 or longer than 16 characters: a resolved
    input has between 3 and 16 characters. *)
Theorem correct_spelling_length_bounds :
  correct_spelling_body None = None
  /\ forall s l, correct_spelling_body (Some s) = Some l ->
                 3 <= length s <= 16.
Proof.
  split; [vm_compute; reflexivity|].
  intros s l H.
  destruct (correct_spelling_body_spec (Some s)) as [H1 _].
  destruct (H1 l H) as [Hin [Hc _]]. cbv zeta in Hc.
  assert (Hr : Qle cutoff (Difflib.real_quick_ratio l (str_lower s))).
  { eapply Qle_trans; [exact Hc|].
    eapply Qle_trans; [apply ratio_le_quick | apply quick_le_real_quick]. }
  assert (Hl : l <> [] /\ 5 <= length l <= 9).
  { simpl in Hin.
    repeat (destruct Hin as [<- | Hin];
            [split; [discriminate | simpl; lia]|]).
    contradiction. }
  destruct Hl as [Hne Hl].
  apply real_quick_ratio_lengths in Hr; [|exact Hne].
  rewrite str_lower_length in Hr. lia.
Qed.

(** ** A link that is already canonical *)

Lemma split_first_canonical tail :
  split_first etv (cdn_etv ++ tail) = Some (cdn_origin, tail).
Proof. reflexivity. Qed.

(** X16: the rewrite of the Video URL Extractor is stable: when the
    manifest link of the player is already a URL of the form
    "https://cdn1.einthusan.io/etv...", that same URL is returned. *)
Theorem extract_video_url_canonical_link (w : World) (url : str)
  (st st1 : fetch_page_cache w) (content : value) (soup player : node)
  (tail : str) :
  fetch_page w url st = (Ret content, st1) ->
  falsy content = false ->
  BeautifulSoup w content = Ret soup ->
  Dom.find (Dom.has_attr "id" "UIVideoPlayer") soup = Some player ->
  Dom.get player "data-mp4-link" = Some (cdn_etv ++ tail) ->
  extract_video_url w url st = (Ret (Some (cdn_etv ++ tail)), st1).
Proof.
  intros Hf Hc Hs Hp Hl. rewrite extract_video_url_unfold, Hf, Hc.
  unfold video_url_of. rewrite Hs, Hp, Hl.
  unfold contains. rewrite split_first_canonical. reflexivity.
Qed.

Lemma extract_video_url_canonical_link_witness :
  let w := simple_world (net_status 200)
             (fun _ => Ret (player_page
                              "https://cdn1.einthusan.io/etv/abc123.mp4")) in
  let url := py "https://einthusan.tv/movie/watch/53BA/" in
  extract_video_url w url []
  = (Ret (Some (cdn_etv ++ py "/abc123.mp4")), [(url, VBytes page_bytes)]).
Proof.
  intros w url.
  exact (extract_video_url_canonical_link w url [] [(url, VBytes page_bytes)]
           (VBytes page_bytes)
           (player_page "https://cdn1.einthusan.io/etv/abc123.mp4")
           (Tag (py "div")
              [(py "id", py "UIVideoPlayer");
               (py "data-mp4-link",
                py "https://cdn1.einthusan.io/etv/abc123.mp4")] [])
           (py "/abc123.mp4") eq_refl eq_refl eq_refl eq_refl eq_refl).
Defined.
